(** * kvm-fuzz: ELF image analysis, stack walking and x86-64 page-table entries

    A shallow embedding of
      - [kernel/src/x86/page_table.h]   (index macros, [PageTableEntry]),
      - [hypervisor/src/elf_parser.cpp] ([ElfParser], [kvm_to_dwarf_regs],
        the two [get_stacktrace] walkers),
    followed by the properties established about them.

    Conventions.  A [uint64_t]/[vaddr_t]/[vsize_t]/[size_t] value is a [Z];
    the wrap-around of every arithmetic operation of the source is written
    out with [wrap64].  A function that may fail an [ASSERT] returns a
    [result]: [Ret] with its value, or [AssertFail] with the message. *)

From Stdlib Require Import ZArith List String Bool Lia.
Import ListNotations.
Local Open Scope string_scope.
Local Open Scope list_scope.
Local Open Scope Z_scope.

(** ** Machine words *)

Definition wrap64 (x : Z) : Z := x mod 2 ^ 64.

(** [~x] for an operand of an unsigned 64-bit type. *)
Definition not64 (x : Z) : Z := wrap64 (Z.lnot x).

Definition UINT64_MAX : Z := 2 ^ 64 - 1.

Definition in_u64 (x : Z) : Prop := 0 <= x < 2 ^ 64.

(** ** Outcome of code that may fail an [ASSERT] *)

Inductive result (A : Type) : Type :=
| Ret (a : A)
| AssertFail (msg : string).
Arguments Ret {A} a.
Arguments AssertFail {A} msg.

Definition bind {A B : Type} (r : result A) (k : A -> result B) : result B :=
  match r with
  | Ret a => k a
  | AssertFail msg => AssertFail msg
  end.

Notation "x <- r ;; k" := (bind r (fun x => k))
  (at level 61, r at next level, right associativity).
Notation "r ;;; k" := (bind r (fun _ => k))
  (at level 61, right associativity).

(** Modelled from the spec: the [ASSERT] macro (its header is not under
    src), the fatal check of the error-handling design: when the condition
    is false the operation is aborted with the message and nothing is
    returned to the caller. *)
Definition ASSERT (expr : bool) (msg : string) : result unit :=
  if expr then Ret tt else AssertFail msg.

(** ** kernel/src/x86/page_table.h *)

Module PageTable.

Definition PTL4_SHIFT : Z := 39.
Definition PTL4_BITS : Z := 9.
Definition PTL4_SIZE : Z := Z.shiftl 1 PTL4_SHIFT.
Definition PTL4_MASK : Z := not64 (PTL4_SIZE - 1).
Definition PTRS_PER_PTL4 : Z := Z.shiftl 1 PTL4_BITS.
Definition PTL4_INDEX (addr : Z) : Z :=
  Z.land (Z.shiftr addr PTL4_SHIFT) (PTRS_PER_PTL4 - 1).

Definition PTL3_SHIFT : Z := 30.
Definition PTL3_BITS : Z := 9.
Definition PTL3_SIZE : Z := Z.shiftl 1 PTL3_SHIFT.
Definition PTL3_MASK : Z := not64 (PTL3_SIZE - 1).
Definition PTRS_PER_PTL3 : Z := Z.shiftl 1 PTL3_BITS.
Definition PTL3_INDEX (addr : Z) : Z :=
  Z.land (Z.shiftr addr PTL3_SHIFT) (PTRS_PER_PTL3 - 1).

Definition PTL2_SHIFT : Z := 21.
Definition PTL2_BITS : Z := 9.
Definition PTL2_SIZE : Z := Z.shiftl 1 PTL2_SHIFT.
Definition PTL2_MASK : Z := not64 (PTL2_SIZE - 1).
Definition PTRS_PER_PTL2 : Z := Z.shiftl 1 PTL2_BITS.
Definition PTL2_INDEX (addr : Z) : Z :=
  Z.land (Z.shiftr addr PTL2_SHIFT) (PTRS_PER_PTL2 - 1).

Definition PTL1_SHIFT : Z := 12.
Definition PTL1_BITS : Z := 9.
Definition PTL1_SIZE : Z := Z.shiftl 1 PTL1_SHIFT.
Definition PTL1_MASK : Z := not64 (PTL1_SIZE - 1).
Definition PTRS_PER_PTL1 : Z := Z.shiftl 1 PTL1_BITS.
Definition PTL1_INDEX (addr : Z) : Z :=
  Z.land (Z.shiftr addr PTL1_SHIFT) (PTRS_PER_PTL1 - 1).

Definition PAGE_SIZE : Z := PTL1_SIZE.
Definition PAGE_OFFSET (addr : Z) : Z := Z.land addr (not64 PTL1_MASK).
Definition PAGE_CEIL (addr : Z) : Z :=
  Z.land (wrap64 (addr + PAGE_SIZE - 1)) PTL1_MASK.
Definition IS_PAGE_ALIGNED (addr : Z) : bool := Z.land addr PTL1_MASK =? addr.

(** [PHYS_MASK] is a plain (signed) literal, so [~PHYS_MASK] is the two's
    complement negation; and-ed with an unsigned 64-bit operand it selects
    bits 0..11 and 52..63. *)
Definition PHYS_MASK : Z := 0x000FFFFFFFFFF000.
Definition PHYS_FLAGS (addr : Z) : Z := Z.land addr (Z.lnot PHYS_MASK).

(** [enum Flags] *)
Definition Present : Z := Z.shiftl 1 0.
Definition ReadWrite : Z := Z.shiftl 1 1.
Definition User : Z := Z.shiftl 1 2.
Definition Accessed : Z := Z.shiftl 1 5.
Definition Dirty : Z := Z.shiftl 1 6.
Definition Huge : Z := Z.shiftl 1 7.
Definition Global : Z := Z.shiftl 1 8.
Definition NoExecute : Z := Z.shiftl 1 63.

(** [class PageTableEntry]: one 8-byte word. *)
Record PageTableEntry : Type := mkPTE { m_raw : Z }.

Definition raw (e : PageTableEntry) : Z := m_raw e.

Definition frame_base (e : PageTableEntry) : Z := Z.land (m_raw e) PHYS_MASK.

Definition set_frame_base (base : Z) (e : PageTableEntry)
  : result PageTableEntry :=
  ASSERT (Z.land base PHYS_MASK =? base) "invalid base" ;;;
  let r := Z.land (m_raw e) (Z.lnot PHYS_MASK) in
  Ret (mkPTE (Z.lor r base)).

Definition set_flags (page_flags : Z) (e : PageTableEntry)
  : result PageTableEntry :=
  ASSERT (Z.land page_flags (Z.lnot PHYS_MASK) =? page_flags)
         "invalig page flags" ;;;
  let r := Z.land (m_raw e) PHYS_MASK in
  Ret (mkPTE (Z.lor r page_flags)).

Definition clear (e : PageTableEntry) : PageTableEntry := mkPTE 0.

Definition set_bit (bit : Z) (value : bool) (e : PageTableEntry)
  : PageTableEntry :=
  if value then mkPTE (Z.lor (m_raw e) bit)
  else mkPTE (Z.land (m_raw e) (not64 bit)).

Definition test_flag (bit : Z) (e : PageTableEntry) : bool :=
  negb (Z.land (m_raw e) bit =? 0).

Definition is_present := test_flag Present.
Definition set_present := set_bit Present.
Definition is_writable := test_flag ReadWrite.
Definition set_writable := set_bit ReadWrite.
Definition is_user := test_flag User.
Definition set_user := set_bit User.
Definition is_huge := test_flag Huge.
Definition set_huge := set_bit Huge.
Definition is_global := test_flag Global.
Definition set_global := set_bit Global.
Definition is_execute_disabled := test_flag NoExecute.
Definition set_execute_disabled := set_bit NoExecute.

End PageTable.

(** ** hypervisor/src/elf_parser.cpp: data *)

(** Modelled from the spec: [ELFCLASS] and [EM] of [elf_parser.h] (not
    under src) for the one supported target, 64-bit x86-64; the other
    constants are those of the system header [elf.h]. *)
Definition ELFCLASS : Z := 2.     (* ELFCLASS64 *)
Definition EM : Z := 62.          (* EM_X86_64 *)
Definition ET_EXEC : Z := 2.
Definition ET_DYN : Z := 3.
Definition PT_LOAD : Z := 1.
Definition PT_INTERP : Z := 3.
Definition SHT_SYMTAB : Z := 2.
Definition SHT_DYNSYM : Z := 11.
Definition sizeof_Elf_Sym : Z := 24.
Definition ELF_ST_BIND (info : Z) : Z := Z.shiftr info 4.
Definition ELF_ST_TYPE (info : Z) : Z := Z.land info 15.
Definition ELF_ST_VISIBILITY (other : Z) : Z := Z.land other 3.

(** Modelled from the spec: the hypervisor's [PAGE_SIZE] (its header is not
    under src), the x86-64 page of 4096 bytes, which is also the value of
    the kernel's [PAGE_SIZE]. *)
Definition PAGE_SIZE : Z := 4096.

(** [#define PAGE_CEIL(addr) (((addr) + PAGE_SIZE - 1) & ~(PAGE_SIZE - 1))],
    applied to a [vaddr_t]. *)
Definition PAGE_CEIL (addr : Z) : Z :=
  Z.land (wrap64 (addr + PAGE_SIZE - 1)) (Z.lnot (PAGE_SIZE - 1)).

(** The on-disk structures, as the casts of [init] view the file. *)
Record Elf_Ehdr : Type := mkEhdr {
  ei_class : Z; e_type : Z; e_machine : Z; e_entry : Z;
  e_phoff : Z; e_shoff : Z; e_phentsize : Z; e_phnum : Z;
  e_shnum : Z; e_shstrndx : Z }.

Record Elf_Phdr : Type := mkPhdr {
  p_type : Z; p_flags : Z; p_offset : Z; p_vaddr : Z; p_paddr : Z;
  p_filesz : Z; p_memsz : Z; p_align : Z }.

Record Elf_Shdr : Type := mkShdr {
  sh_name : Z; sh_type : Z; sh_flags : Z; sh_addr : Z; sh_offset : Z;
  sh_size : Z; sh_link : Z; sh_info : Z; sh_addralign : Z; sh_entsize : Z }.

Record Elf_Sym : Type := mkSym {
  st_name : Z; st_info : Z; st_other : Z; st_shndx : Z;
  st_value : Z; st_size : Z }.

(** [struct kvm_regs] of the KVM API. *)
Record kvm_regs : Type := mkKregs {
  rax : Z; rbx : Z; rcx : Z; rdx : Z; rsi : Z; rdi : Z; rsp : Z; rbp : Z;
  r8 : Z; r9 : Z; r10 : Z; r11 : Z; r12 : Z; r13 : Z; r14 : Z; r15 : Z;
  rip : Z; rflags : Z }.

(** Modelled from the spec: [enum DwarfReg] (declared with [ElfDebug], not
    under src), the general-purpose registers and the synthetic
    return-address slot; these are the slots that [kvm_to_dwarf_regs]
    fills. *)
Module DwarfReg.
Inductive t : Type :=
| Rax | Rdx | Rcx | Rbx | Rsi | Rdi | Rbp | Rsp
| R8 | R9 | R10 | R11 | R12 | R13 | R14 | R15
| ReturnAddress.

Definition eq_dec (a b : t) : {a = b} + {a <> b}.
Proof. decide equality. Defined.
End DwarfReg.

(** [vsize_t regs[DwarfReg::MAX]]: an array keyed by the enumeration. *)
Definition Regs : Type := DwarfReg.t -> Z.

Definition set_reg (regs : Regs) (r : DwarfReg.t) (v : Z) : Regs :=
  fun r' => if DwarfReg.eq_dec r' r then v else regs r'.

(** Modelled from the spec: the [Mmu] collaborator (its class is not under
    src), as its one primitive [read(virtual_address, length) -> bytes],
    which fails on an unmapped address. *)
Definition Mmu : Type := Z -> Z -> option (list Z).

(** [class ElfDebug] is not under src.  An [ElfDebug] object is taken as
    its three methods; [next_frame] updates the register array (and may use
    the [Mmu]) and answers whether a further frame was found. *)
Record ElfDebug : Type := mkDebug {
  has : bool;
  next_frame : Regs -> Mmu -> bool * Regs * Mmu;
  addr_to_source : Z -> string }.

Record phinfo_t : Type := mkPhinfo {
  ph_e_phoff : Z; ph_e_phentsize : Z; ph_e_phnum : Z }.

(** [segment_t], [section_t], [symbol_t].  The [data] pointer of a segment
    or section is [m_data + offset]; it is determined by [offset]. *)
Record segment_t : Type := mkSegment {
  seg_type : Z; seg_flags : Z; seg_offset : Z; seg_vaddr : Z; seg_paddr : Z;
  seg_filesize : Z; seg_memsize : Z; seg_align : Z }.

Record section_t : Type := mkSection {
  sec_name : string; sec_type : Z; sec_flags : Z; sec_addr : Z;
  sec_offset : Z; sec_size : Z; sec_link : Z; sec_info : Z;
  sec_addralign : Z; sec_entsize : Z }.

Record symbol_t : Type := mkSymbol {
  sym_name : string; sym_type : Z; sym_binding : Z; sym_visibility : Z;
  sym_shndx : Z; sym_value : Z; sym_size : Z }.

(** The members of [class ElfParser]. *)
Record ElfParser : Type := mkElfParser {
  m_path : string;
  m_phinfo : phinfo_t;
  m_type : Z;
  m_entry : Z;
  m_load_addr : Z;
  m_initial_brk : Z;
  m_interpreter : string;
  m_segments : list segment_t;
  m_sections : list section_t;
  m_symbols : list symbol_t;
  m_dependencies : list string;
  m_debug : ElfDebug }.

(** What [init] reads: the file contents [m_data] through the typed views
    the source casts it to, and the text the [ldd] command prints. *)
Record ElfFile : Type := mkElfFile {
  ehdr : Elf_Ehdr;
  phdr : list Elf_Phdr;            (* the [e_phnum] entries at [e_phoff] *)
  shdr : list Elf_Shdr;            (* the [e_shnum] entries at [e_shoff] *)
  cstr : Z -> string;              (* NUL-terminated string at an offset *)
  sym_at : Z -> Z -> Elf_Sym;      (* [((Elf_Sym* )(m_data + off))[i]] *)
  ldd_lines : list string;         (* output of [ldd], split at newlines *)
  debug_of : ElfDebug }.           (* [ElfDebug(m_data, m_size)] *)

(** ** hypervisor/src/elf_parser.cpp: operations *)

(** *** [ElfParser::init] *)

Definition segment_of (ph : Elf_Phdr) : segment_t :=
  {| seg_type := p_type ph; seg_flags := p_flags ph;
     seg_offset := p_offset ph; seg_vaddr := p_vaddr ph;
     seg_paddr := p_paddr ph; seg_filesize := p_filesz ph;
     seg_memsize := p_memsz ph; seg_align := p_align ph |}.

(** The state the "Get segments" loop carries from one program header to the
    next: [m_segments], [m_load_addr], [m_initial_brk], [m_interpreter]. *)
Record seg_state : Type := mkSegState {
  st_segments : list segment_t;
  st_load_addr : Z;
  st_initial_brk : Z;
  st_interpreter : string }.

Definition seg_state0 : seg_state :=
  {| st_segments := []; st_load_addr := UINT64_MAX;
     st_initial_brk := 0; st_interpreter := EmptyString |}.

(** One iteration of the loop. *)
Definition seg_step (f : ElfFile) (s : seg_state) (ph : Elf_Phdr) : seg_state :=
  let segment := segment_of ph in
  let segs := (st_segments s ++ [segment])%list in
  let '(brk, la) :=
    if seg_type segment =? PT_LOAD then
      let next_page :=
        PAGE_CEIL (wrap64 (seg_vaddr segment + seg_memsize segment)) in
      (Z.max (st_initial_brk s) next_page,
       Z.min (st_load_addr s) (seg_vaddr segment))
    else (st_initial_brk s, st_load_addr s) in
  let interp :=
    if seg_type segment =? PT_INTERP then cstr f (seg_offset segment)
    else st_interpreter s in
  {| st_segments := segs; st_load_addr := la;
     st_initial_brk := brk; st_interpreter := interp |}.

Definition get_segments (f : ElfFile) : seg_state :=
  fold_left (seg_step f) (phdr f) seg_state0.

Definition shdr0 : Elf_Shdr := mkShdr 0 0 0 0 0 0 0 0 0 0.
Definition section0 : section_t := mkSection EmptyString 0 0 0 0 0 0 0 0 0.

(** "Get sections".  [shdr[e_shstrndx]] is read without a bound check; an
    index past the table is outside what the source defines, and reads
    [shdr0] here. *)
Definition get_sections (f : ElfFile) : list section_t :=
  let sh_strtab := nth (Z.to_nat (e_shstrndx (ehdr f))) (shdr f) shdr0 in
  let strtab := sh_offset sh_strtab in
  map (fun sh =>
         {| sec_name := cstr f (strtab + sh_name sh);
            sec_type := sh_type sh; sec_flags := sh_flags sh;
            sec_addr := sh_addr sh; sec_offset := sh_offset sh;
            sec_size := sh_size sh; sec_link := sh_link sh;
            sec_info := sh_info sh; sec_addralign := sh_addralign sh;
            sec_entsize := sh_entsize sh |})
      (shdr f).

Definition symbol_of (f : ElfFile) (sec_strtab : Z) (sy : Elf_Sym) : symbol_t :=
  {| sym_name := cstr f (sec_strtab + st_name sy);
     sym_type := ELF_ST_TYPE (st_info sy);
     sym_binding := ELF_ST_BIND (st_info sy);
     sym_visibility := ELF_ST_VISIBILITY (st_other sy);
     sym_shndx := st_shndx sy;
     sym_value := st_value sy;
     sym_size := st_size sy |}.

(** "Get symbols": the records of every [SHT_SYMTAB]/[SHT_DYNSYM] section,
    named through the section its [link] designates ([m_sections[link]],
    again without a bound check). *)
Definition section_symbols (f : ElfFile) (sections : list section_t)
           (section : section_t) : list symbol_t :=
  if negb (sec_type section =? SHT_SYMTAB)
     && negb (sec_type section =? SHT_DYNSYM) then []
  else
    let n_syms := Z.to_nat (sec_size section / sizeof_Elf_Sym) in
    let sec_strtab :=
      sec_offset (nth (Z.to_nat (sec_link section)) sections section0) in
    map (fun i => symbol_of f sec_strtab
                    (sym_at f (sec_offset section) (Z.of_nat i)))
        (seq 0 n_syms).

Definition get_symbols (f : ElfFile) (sections : list section_t)
  : list symbol_t :=
  flat_map (section_symbols f sections) sections.

(** "Get dependencies using ldd": the text between ["=> "] and the next
    space of every line that has both. *)
Definition ldd_dependency (line : string) : option string :=
  match index 0 "=> " line with
  | None => None
  | Some p =>
      let pos1 := (p + 3)%nat in
      match index pos1 " " line with
      | None => None
      | Some pos2 => Some (substring pos1 (pos2 - pos1) line)
      end
  end.

Definition get_dependencies (f : ElfFile) : list string :=
  flat_map (fun line => match ldd_dependency line with
                        | Some d => [d]
                        | None => []
                        end) (ldd_lines f).

Definition init (path : string) (f : ElfFile) : result ElfParser :=
  let eh := ehdr f in
  ASSERT (ei_class eh =? ELFCLASS) "BITS don't match" ;;;
  ASSERT (e_machine eh =? EM) "MACH doesn't match" ;;;
  ASSERT ((e_type eh =? ET_EXEC) || (e_type eh =? ET_DYN))
         "TYPE doesn't match (expecting executable or shared" ;;;
  let s := get_segments f in
  (if e_type eh =? ET_DYN
   then ASSERT (st_load_addr s =? 0) "PIE binary with load addr"
   else Ret tt) ;;;
  let sections := get_sections f in
  Ret {| m_path := path;
         m_phinfo := {| ph_e_phoff := e_phoff eh;
                        ph_e_phentsize := e_phentsize eh;
                        ph_e_phnum := e_phnum eh |};
         m_type := e_type eh;
         m_entry := e_entry eh;
         m_load_addr := st_load_addr s;
         m_initial_brk := st_initial_brk s;
         m_interpreter := st_interpreter s;
         m_segments := st_segments s;
         m_sections := sections;
         m_symbols := get_symbols f sections;
         m_dependencies := get_dependencies f;
         m_debug := debug_of f |}.

(** *** Accessors *)

Definition load_addr (p : ElfParser) : Z := m_load_addr p.
Definition initial_brk (p : ElfParser) : Z := m_initial_brk p.
Definition type (p : ElfParser) : Z := m_type p.
Definition entry (p : ElfParser) : Z := m_entry p.
Definition segments (p : ElfParser) : list segment_t := m_segments p.
Definition sections (p : ElfParser) : list section_t := m_sections p.
Definition symbols (p : ElfParser) : list symbol_t := m_symbols p.
Definition has_dwarf (p : ElfParser) : bool := has (m_debug p).

(** *** [ElfParser::set_load_addr] *)

Definition shift_segment (diff : Z) (s : segment_t) : segment_t :=
  {| seg_type := seg_type s; seg_flags := seg_flags s;
     seg_offset := seg_offset s;
     seg_vaddr := wrap64 (seg_vaddr s + diff);
     seg_paddr := wrap64 (seg_paddr s + diff);
     seg_filesize := seg_filesize s; seg_memsize := seg_memsize s;
     seg_align := seg_align s |}.

Definition shift_section (diff : Z) (s : section_t) : section_t :=
  {| sec_name := sec_name s; sec_type := sec_type s; sec_flags := sec_flags s;
     sec_addr := wrap64 (sec_addr s + diff);
     sec_offset := sec_offset s; sec_size := sec_size s;
     sec_link := sec_link s; sec_info := sec_info s;
     sec_addralign := sec_addralign s; sec_entsize := sec_entsize s |}.

Definition shift_symbol (diff : Z) (s : symbol_t) : symbol_t :=
  {| sym_name := sym_name s; sym_type := sym_type s;
     sym_binding := sym_binding s; sym_visibility := sym_visibility s;
     sym_shndx := sym_shndx s;
     sym_value := wrap64 (sym_value s + diff);
     sym_size := sym_size s |}.

Definition set_load_addr (new_load_addr : Z) (p : ElfParser)
  : result ElfParser :=
  ASSERT (m_type p =? ET_DYN) "setting load_addr to not PIE binary" ;;;
  let diff := wrap64 (new_load_addr - m_load_addr p) in
  Ret {| m_path := m_path p;
         m_phinfo := m_phinfo p;
         m_type := m_type p;
         m_entry := wrap64 (m_entry p + diff);
         m_load_addr := new_load_addr;
         m_initial_brk := wrap64 (m_initial_brk p + diff);
         m_interpreter := m_interpreter p;
         m_segments := map (shift_segment diff) (m_segments p);
         m_sections := map (shift_section diff) (m_sections p);
         m_symbols := map (shift_symbol diff) (m_symbols p);
         m_dependencies := m_dependencies p;
         m_debug := m_debug p |}.

(** *** Lookups *)

Fixpoint section_limits_in (l : list section_t) (name : string)
  : result (Z * Z) :=
  match l with
  | [] => AssertFail "not found section"
  | section :: rest =>
      if String.eqb (sec_name section) name
      then Ret (sec_addr section, wrap64 (sec_addr section + sec_size section))
      else section_limits_in rest name
  end.

Definition section_limits (p : ElfParser) (name : string) : result (Z * Z) :=
  section_limits_in (sections p) name.

Fixpoint symbol_limits_in (l : list symbol_t) (name : string)
  : result (Z * Z) :=
  match l with
  | [] => AssertFail "not found symbol"
  | symbol :: rest =>
      if String.eqb (sym_name symbol) name
      then Ret (sym_value symbol, wrap64 (sym_value symbol + sym_size symbol))
      else symbol_limits_in rest name
  end.

Definition symbol_limits (p : ElfParser) (name : string) : result (Z * Z) :=
  symbol_limits_in (symbols p) name.

(** [addr_to_symbol] returns [true] and writes [result], or returns [false]
    and leaves it alone: [Some symbol] and [None]. *)
Definition symbol_covers (addr : Z) (symbol : symbol_t) : bool :=
  (sym_value symbol <=? addr)
  && (addr <? wrap64 (sym_value symbol + sym_size symbol)).

Fixpoint addr_to_symbol_in (l : list symbol_t) (addr : Z) : option symbol_t :=
  match l with
  | [] => None
  | symbol :: rest =>
      if symbol_covers addr symbol then Some symbol
      else addr_to_symbol_in rest addr
  end.

Definition addr_to_symbol (p : ElfParser) (addr : Z) : option symbol_t :=
  addr_to_symbol_in (symbols p) addr.

Definition elf_addr_to_source (p : ElfParser) (addr : Z) : string :=
  let addr := if m_type p =? ET_DYN then wrap64 (addr - m_load_addr p)
              else addr in
  addr_to_source (m_debug p) addr.

(** *** [kvm_to_dwarf_regs] *)

(** The seventeen assignments, in the order of the source. *)
Definition kvm_to_dwarf_regs (kregs : kvm_regs) (regs : Regs) : Regs :=
  let regs := set_reg regs DwarfReg.Rax (rax kregs) in
  let regs := set_reg regs DwarfReg.Rdx (rdx kregs) in
  let regs := set_reg regs DwarfReg.Rcx (rdx kregs) in
  let regs := set_reg regs DwarfReg.Rbx (rbx kregs) in
  let regs := set_reg regs DwarfReg.Rsi (rsi kregs) in
  let regs := set_reg regs DwarfReg.Rdi (rdi kregs) in
  let regs := set_reg regs DwarfReg.Rbp (rbp kregs) in
  let regs := set_reg regs DwarfReg.Rsp (rsp kregs) in
  let regs := set_reg regs DwarfReg.R8 (r8 kregs) in
  let regs := set_reg regs DwarfReg.R9 (r9 kregs) in
  let regs := set_reg regs DwarfReg.R10 (r10 kregs) in
  let regs := set_reg regs DwarfReg.R11 (r11 kregs) in
  let regs := set_reg regs DwarfReg.R12 (r12 kregs) in
  let regs := set_reg regs DwarfReg.R13 (r13 kregs) in
  let regs := set_reg regs DwarfReg.R14 (r14 kregs) in
  let regs := set_reg regs DwarfReg.R15 (r15 kregs) in
  set_reg regs DwarfReg.ReturnAddress (rip kregs).

(** The hardware register that has the name of a slot. *)
Definition same_name_register (kregs : kvm_regs) (r : DwarfReg.t) : Z :=
  match r with
  | DwarfReg.Rax => rax kregs | DwarfReg.Rdx => rdx kregs
  | DwarfReg.Rcx => rcx kregs | DwarfReg.Rbx => rbx kregs
  | DwarfReg.Rsi => rsi kregs | DwarfReg.Rdi => rdi kregs
  | DwarfReg.Rbp => rbp kregs | DwarfReg.Rsp => rsp kregs
  | DwarfReg.R8 => r8 kregs | DwarfReg.R9 => r9 kregs
  | DwarfReg.R10 => r10 kregs | DwarfReg.R11 => r11 kregs
  | DwarfReg.R12 => r12 kregs | DwarfReg.R13 => r13 kregs
  | DwarfReg.R14 => r14 kregs | DwarfReg.R15 => r15 kregs
  | DwarfReg.ReturnAddress => rip kregs
  end.

(** The local array [regs] before [kvm_to_dwarf_regs] fills it.  Its content
    is indeterminate in the source; every slot is overwritten. *)
Definition regs_uninit : Regs := fun _ => 0.

(** *** [ElfParser::get_stacktrace], one image *)

(** [regs[DwarfReg::ReturnAddress] -= load_addr] for a PIE image. *)
Definition rebase (elf : ElfParser) (regs : Regs) : Regs :=
  if type elf =? ET_DYN
  then set_reg regs DwarfReg.ReturnAddress
         (wrap64 (regs DwarfReg.ReturnAddress - load_addr elf))
  else regs.

(** The [do ... while] loop.  [fuel] bounds the number of iterations the
    model runs; [None] means the bound was hit before the loop ended. *)
Fixpoint stacktrace_loop (p : ElfParser) (limits : Z * Z) (num_frames : Z)
         (fuel : nat) (i : Z) (regs : Regs) (mmu : Mmu)
         (stacktrace : list Z) : option (list Z) :=
  match fuel with
  | O => None
  | S fuel' =>
      let stacktrace :=
        (stacktrace ++ [regs DwarfReg.ReturnAddress])%list in
      let regs := rebase p regs in
      let i := wrap64 (i + 1) in
      if i <? num_frames then
        let '(more, regs, mmu) := next_frame (m_debug p) regs mmu in
        if more
           && (fst limits <=? regs DwarfReg.ReturnAddress)
           && (regs DwarfReg.ReturnAddress <? snd limits)
        then stacktrace_loop p limits num_frames fuel' i regs mmu stacktrace
        else Some stacktrace
      else Some stacktrace
  end.

(** Iterations that always suffice: the loop runs at most
    [max 1 num_frames] times. *)
Definition enough_fuel (num_frames : Z) : nat := S (Z.to_nat num_frames).

Definition get_stacktrace (p : ElfParser) (kregs : kvm_regs) (num_frames : Z)
           (mmu : Mmu) : option (result (list Z)) :=
  let regs := kvm_to_dwarf_regs kregs regs_uninit in
  match section_limits p ".text" with
  | AssertFail msg => Some (AssertFail msg)
  | Ret limits =>
      option_map Ret
        (stacktrace_loop p limits num_frames (enough_fuel num_frames)
                         0 regs mmu [])
  end.

(** *** [elf_with_addr_in_text] and [get_stacktrace] over several images *)

(** A [const ElfParser*] is the image it points to; [nullptr] is [None]. *)
Fixpoint elf_with_addr_in_text (elfs : list ElfParser) (addr : Z)
  : result (option ElfParser) :=
  match elfs with
  | [] => Ret None
  | elf :: rest =>
      range <- section_limits elf ".text" ;;
      if (fst range <=? addr) && (addr <? snd range) then Ret (Some elf)
      else elf_with_addr_in_text rest addr
  end.

Fixpoint stacktrace_loop_elfs (elfs : list ElfParser) (num_frames : Z)
         (fuel : nat) (i : Z) (regs : Regs) (mmu : Mmu)
         (stacktrace : list (Z * ElfParser))
  : option (result (list (Z * ElfParser))) :=
  match fuel with
  | O => None
  | S fuel' =>
      match elf_with_addr_in_text elfs (regs DwarfReg.ReturnAddress) with
      | AssertFail msg => Some (AssertFail msg)
      | Ret None => Some (Ret stacktrace)
      | Ret (Some elf) =>
          let stacktrace :=
            (stacktrace ++ [(regs DwarfReg.ReturnAddress, elf)])%list in
          let regs := rebase elf regs in
          let i := wrap64 (i + 1) in
          if i <? num_frames then
            let '(more, regs, mmu) := next_frame (m_debug elf) regs mmu in
            if more
            then stacktrace_loop_elfs elfs num_frames fuel' i regs mmu
                                      stacktrace
            else Some (Ret stacktrace)
          else Some (Ret stacktrace)
      end
  end.

Definition get_stacktrace_elfs (elfs : list ElfParser) (kregs : kvm_regs)
           (num_frames : Z) (mmu : Mmu)
  : option (result (list (Z * ElfParser))) :=
  let regs := kvm_to_dwarf_regs kregs regs_uninit in
  stacktrace_loop_elfs elfs num_frames (enough_fuel num_frames) 0 regs mmu [].

(** ** Notions used in the statements *)

Definition is_load (ph : Elf_Phdr) : bool := p_type ph =? PT_LOAD.

(** The page-rounded end of a segment, as [init] computes it. *)
Definition page_end (ph : Elf_Phdr) : Z :=
  PAGE_CEIL (wrap64 (p_vaddr ph + p_memsz ph)).

(** A segment, section or symbol after a shift of its addresses by [delta]
    (64-bit arithmetic), every other field unchanged. *)
Definition segment_shifted (delta : Z) (s s' : segment_t) : Prop :=
  seg_vaddr s' = wrap64 (seg_vaddr s + delta) /\
  seg_paddr s' = wrap64 (seg_paddr s + delta) /\
  seg_type s' = seg_type s /\ seg_flags s' = seg_flags s /\
  seg_offset s' = seg_offset s /\ seg_filesize s' = seg_filesize s /\
  seg_memsize s' = seg_memsize s /\ seg_align s' = seg_align s.

Definition section_shifted (delta : Z) (s s' : section_t) : Prop :=
  sec_addr s' = wrap64 (sec_addr s + delta) /\
  sec_name s' = sec_name s /\ sec_type s' = sec_type s /\
  sec_flags s' = sec_flags s /\ sec_offset s' = sec_offset s /\
  sec_size s' = sec_size s /\ sec_link s' = sec_link s /\
  sec_info s' = sec_info s /\ sec_addralign s' = sec_addralign s /\
  sec_entsize s' = sec_entsize s.

Definition symbol_shifted (delta : Z) (s s' : symbol_t) : Prop :=
  sym_value s' = wrap64 (sym_value s + delta) /\
  sym_name s' = sym_name s /\ sym_type s' = sym_type s /\
  sym_binding s' = sym_binding s /\ sym_visibility s' = sym_visibility s /\
  sym_shndx s' = sym_shndx s /\ sym_size s' = sym_size s.

(** The half-open interval of a symbol, with the 64-bit sum the source
    computes as its end. *)
Definition in_symbol_interval (addr : Z) (s : symbol_t) : Prop :=
  sym_value s <= addr < wrap64 (sym_value s + sym_size s).

(** An image has a section named [.text]; its range contains an address. *)
Definition has_text (elf : ElfParser) : Prop :=
  exists range, section_limits elf ".text" = Ret range.

Definition text_contains (elf : ElfParser) (addr : Z) : Prop :=
  exists lo hi, section_limits elf ".text" = Ret (lo, hi) /\ lo <= addr < hi.

(** [elf] is the first image of [elfs] whose [.text] range contains
    [addr]; no image of [elfs] has [addr] in its [.text] range. *)
Definition first_text_owner (elfs : list ElfParser) (addr : Z)
           (elf : ElfParser) : Prop :=
  exists pre post,
    elfs = pre ++ elf :: post /\ text_contains elf addr /\
    forall e, In e pre -> ~ text_contains e addr.

Definition no_text_owner (elfs : list ElfParser) (addr : Z) : Prop :=
  forall e, In e elfs -> ~ text_contains e addr.

(** The multi-image walk in the words of the specification: at each step
    the owner of the current return address is looked up; without an owner
    the walk stops; otherwise the pair is recorded, and the walk stops when
    the cap is reached or [next_frame] of the owner finds no further frame,
    and goes on from the caller's registers otherwise.  [n] counts the
    pairs recorded before the step. *)
Inductive multi_walk (elfs : list ElfParser) (num_frames : Z)
  : Z -> Regs -> Mmu -> list (Z * ElfParser) -> Prop :=
| walk_no_owner n regs mmu :
    no_text_owner elfs (regs DwarfReg.ReturnAddress) ->
    multi_walk elfs num_frames n regs mmu []
| walk_cap n regs mmu elf :
    first_text_owner elfs (regs DwarfReg.ReturnAddress) elf ->
    num_frames <= n + 1 ->
    multi_walk elfs num_frames n regs mmu
               [(regs DwarfReg.ReturnAddress, elf)]
| walk_last_frame n regs mmu elf regs' mmu' :
    first_text_owner elfs (regs DwarfReg.ReturnAddress) elf ->
    n + 1 < num_frames ->
    next_frame (m_debug elf) (rebase elf regs) mmu = (false, regs', mmu') ->
    multi_walk elfs num_frames n regs mmu
               [(regs DwarfReg.ReturnAddress, elf)]
| walk_step n regs mmu elf regs' mmu' trace :
    first_text_owner elfs (regs DwarfReg.ReturnAddress) elf ->
    n + 1 < num_frames ->
    next_frame (m_debug elf) (rebase elf regs) mmu = (true, regs', mmu') ->
    multi_walk elfs num_frames (n + 1) regs' mmu' trace ->
    multi_walk elfs num_frames n regs mmu
               ((regs DwarfReg.ReturnAddress, elf) :: trace).

(** The counter [i] of a walk at the head of an iteration, and an amount of
    fuel that suffices from there. *)
Definition loop_counter_ok (num_frames i : Z) : Prop :=
  i = 0 \/ 0 <= i < num_frames.
Definition loop_fuel_ok (num_frames : Z) (fuel : nat) (i : Z) : Prop :=
  fuel <> O /\ num_frames - i < Z.of_nat fuel.

(** ** Further notions *)

(** The single-bit flags of [PageTableEntry::Flags] that have a getter and
    a setter, and the union of all the flags of the enumeration. *)
Definition pte_accessor_bits : list Z :=
  [PageTable.Present; PageTable.ReadWrite; PageTable.User;
   PageTable.Huge; PageTable.Global; PageTable.NoExecute].

Definition pte_all_flags : Z :=
  fold_right Z.lor 0
    [PageTable.Present; PageTable.ReadWrite; PageTable.User;
     PageTable.Accessed; PageTable.Dirty; PageTable.Huge;
     PageTable.Global; PageTable.NoExecute].




(** Every address an image holds is a 64-bit value. *)
Definition image_in_u64 (p : ElfParser) : Prop :=
  in_u64 (m_entry p) /\ in_u64 (m_initial_brk p) /\
  Forall (fun s => in_u64 (seg_vaddr s) /\ in_u64 (seg_paddr s))
         (m_segments p) /\
  Forall (fun s => in_u64 (sec_addr s)) (m_sections p) /\
  Forall (fun s => in_u64 (sym_value s)) (m_symbols p).

(** [d] is the text of [line] between the end of its first ["=> "] and
    the first space after it. *)
Definition delimited_dependency (line d : string) : Prop :=
  exists p q : nat,
    (p + 3 <= q)%nat /\
    substring p 3 line = "=> " /\
    (forall p', (p' < p)%nat -> substring p' 3 line <> "=> ") /\
    substring q 1 line = " " /\
    (forall q', (p + 3 <= q')%nat -> (q' < q)%nat ->
                substring q' 1 line <> " ") /\
    d = substring (p + 3) (q - (p + 3)) line.

(** An address of a single-image trace tagged with the image. *)
Definition tag_with (p : ElfParser) (addr : Z) : Z * ElfParser := (addr, p).

(** ** Sample data *)

(** An [ElfDebug] without debug information: no further frame, no source. *)
Definition debug_none : ElfDebug :=
  {| has := false;
     next_frame := fun regs mmu => (false, regs, mmu);
     addr_to_source := fun _ => EmptyString |}.

(** An [ElfDebug] whose every frame returns to the address stored in [Rbx],
    and then clears [Rbx]. *)
Definition debug_chain : ElfDebug :=
  {| has := true;
     next_frame := fun regs mmu =>
       (true,
        set_reg (set_reg regs DwarfReg.ReturnAddress (regs DwarfReg.Rbx))
                DwarfReg.Rbx 0,
        mmu);
     addr_to_source := fun _ => EmptyString |}.

Definition mmu_unmapped : Mmu := fun _ _ => None.

Definition kregs0 : kvm_regs := mkKregs 0 0 0 0 0 0 0 0 0 0 0 0 0 0 0 0 0 0.

(** A snapshot that tells [rcx] from [rdx]. *)
Definition kregs_rcx1_rdx2 : kvm_regs :=
  {| rax := 0; rbx := 0; rcx := 1; rdx := 2; rsi := 0; rdi := 0; rsp := 0;
     rbp := 0; r8 := 0; r9 := 0; r10 := 0; r11 := 0; r12 := 0; r13 := 0;
     r14 := 0; r15 := 0; rip := 0; rflags := 0 |}.

Definition ehdr_sample (ty : Z) : Elf_Ehdr :=
  {| ei_class := ELFCLASS; e_type := ty; e_machine := EM; e_entry := 0x1040;
     e_phoff := 64; e_shoff := 0; e_phentsize := 56; e_phnum := 3;
     e_shnum := 0; e_shstrndx := 0 |}.

(** Two loadable segments, at [0x2000] (ending at [0x2345]) and at [0]
    (ending at [0x1800]), and a note segment at [0x9000] that is not
    loadable. *)
Definition phdr_sample : list Elf_Phdr :=
  [ mkPhdr PT_LOAD 6 0x2000 0x2000 0x2000 0x300 0x345 0x1000;
    mkPhdr 4 4 0x3000 0x9000 0x9000 0x20 0x20 4;
    mkPhdr PT_LOAD 5 0 0 0 0x1800 0x1800 0x1000 ].

Definition file_sample (ty : Z) : ElfFile :=
  {| ehdr := ehdr_sample ty; phdr := phdr_sample; shdr := [];
     cstr := fun _ => EmptyString;
     sym_at := fun _ _ => mkSym 0 0 0 0 0 0;
     ldd_lines := []; debug_of := debug_none |}.

Definition text_section (addr size : Z) : section_t :=
  {| sec_name := ".text"; sec_type := 1; sec_flags := 6; sec_addr := addr;
     sec_offset := addr; sec_size := size; sec_link := 0; sec_info := 0;
     sec_addralign := 16; sec_entsize := 0 |}.

Definition func_symbol (name : string) (value size : Z) : symbol_t :=
  {| sym_name := name; sym_type := 2; sym_binding := 1; sym_visibility := 0;
     sym_shndx := 1; sym_value := value; sym_size := size |}.

(** An image with the given type, sections, symbols and debug object. *)
Definition image (ty : Z) (secs : list section_t) (syms : list symbol_t)
           (dbg : ElfDebug) : ElfParser :=
  {| m_path := "a.out"; m_phinfo := mkPhinfo 64 56 0; m_type := ty;
     m_entry := 0x1040; m_load_addr := 0; m_initial_brk := 0x3000;
     m_interpreter := EmptyString;
     m_segments := [mkSegment PT_LOAD 5 0 0 0 0x2800 0x2800 0x1000];
     m_sections := secs; m_symbols := syms; m_dependencies := [];
     m_debug := dbg |}.

(** A position-independent image with [.text] at [0x1000..0x2000) and two
    functions. *)
Definition pie_image : ElfParser :=
  image ET_DYN [text_section 0x1000 0x1000]
        [func_symbol "main" 0x1000 0x40; func_symbol "helper" 0x1040 0x20]
        debug_none.

(** What [init] builds from [file_sample ET_EXEC]. *)
Definition parsed_sample : ElfParser :=
  {| m_path := "a.out"; m_phinfo := mkPhinfo 64 56 3; m_type := ET_EXEC;
     m_entry := 0x1040; m_load_addr := 0; m_initial_brk := 0x3000;
     m_interpreter := EmptyString;
     m_segments := map segment_of phdr_sample;
     m_sections := []; m_symbols := []; m_dependencies := [];
     m_debug := debug_none |}.

(** A snapshot stopped at [0x1010] whose frame returns to [0x7010]. *)
Definition kregs_at_1010 : kvm_regs :=
  {| rax := 0; rbx := 0x7010; rcx := 0; rdx := 0; rsi := 0; rdi := 0;
     rsp := 0; rbp := 0; r8 := 0; r9 := 0; r10 := 0; r11 := 0; r12 := 0;
     r13 := 0; r14 := 0; r15 := 0; rip := 0x1010; rflags := 0 |}.

(** Two fixed-address images with disjoint [.text] ranges,
    [0x1000..0x2000) and [0x7000..0x8000). *)
Definition image_A : ElfParser :=
  image ET_EXEC [text_section 0x1000 0x1000] [] debug_chain.
Definition image_B : ElfParser :=
  image ET_EXEC [text_section 0x7000 0x1000] [] debug_chain.

(** ** Further sample data *)

(** A file with an interpreter, four section headers ([.text], [.symtab],
    [.strtab] after the null header; [.strtab] also names the sections) and
    a symbol table of 80 bytes: three records and 8 bytes more. *)
Definition cstr_sample (off : Z) : string :=
  if off =? 0x238 then "/lib64/ld-linux-x86-64.so.2"
  else if off =? 0x4001 then ".text"
  else if off =? 0x4007 then ".symtab"
  else if off =? 0x400f then ".strtab"
  else if off =? 0x4017 then "main"
  else if off =? 0x401c then "helper"
  else EmptyString.

Definition sym_at_sample (off i : Z) : Elf_Sym :=
  if (off =? 0x3000) && (i =? 1) then mkSym 0x17 0x12 0 1 0x1000 0x40
  else if (off =? 0x3000) && (i =? 2) then mkSym 0x1c 0x02 0 1 0x1040 0x20
  else mkSym 0 0 0 0 0 0.

Definition shdr_sample : list Elf_Shdr :=
  [ shdr0;
    mkShdr 0x01 1 6 0x1000 0x1000 0x1000 0 0 16 0;
    mkShdr 0x07 SHT_SYMTAB 0 0 0x3000 0x50 3 1 8 24;
    mkShdr 0x0f 3 0 0 0x4000 0x30 0 0 1 0 ].

Definition file_full : ElfFile :=
  {| ehdr := {| ei_class := ELFCLASS; e_type := ET_DYN; e_machine := EM;
                e_entry := 0x1040; e_phoff := 64; e_shoff := 0x5000;
                e_phentsize := 56; e_phnum := 4; e_shnum := 4;
                e_shstrndx := 3 |};
     phdr := mkPhdr PT_INTERP 4 0x238 0x238 0x238 0x1c 0x1c 1 :: phdr_sample;
     shdr := shdr_sample;
     cstr := cstr_sample;
     sym_at := sym_at_sample;
     ldd_lines :=
       [ " linux-vdso.so.1 (0x00007ffc1a5f2000)";
         " libc.so.6 => /lib/x86_64-linux-gnu/libc.so.6 (0x00007f12a0e00000)";
         " libmissing.so => not found";
         " /lib64/ld-linux-x86-64.so.2 (0x00007f12a1200000)" ];
     debug_of := debug_none |}.

(** An image whose addresses are all 64-bit values, at load address
    [0x400000]. *)
Definition image_at_400000 : ElfParser :=
  {| m_path := "a.out"; m_phinfo := mkPhinfo 64 56 1; m_type := ET_DYN;
     m_entry := 0x401040; m_load_addr := 0x400000; m_initial_brk := 0x403000;
     m_interpreter := EmptyString;
     m_segments := [mkSegment PT_LOAD 5 0 0x400000 0x400000 0x2800 0x2800
                               0x1000];
     m_sections := [text_section 0x401000 0x1000];
     m_symbols := [func_symbol "main" 0x401000 0x40];
     m_dependencies := []; m_debug := debug_none |}.

(** * Properties *)

(** ** 64-bit arithmetic *)

Lemma wrap64_range (x : Z) : 0 <= wrap64 x < 2 ^ 64.
Proof. unfold wrap64. apply Z.mod_pos_bound. lia. Qed.

Lemma wrap64_small (x : Z) : 0 <= x < 2 ^ 64 -> wrap64 x = x.
Proof. unfold wrap64. apply Z.mod_small. Qed.

Lemma wrap64_add_l (x y : Z) : wrap64 (wrap64 x + y) = wrap64 (x + y).
Proof. unfold wrap64. apply Zplus_mod_idemp_l. Qed.

Lemma wrap64_add_r (x y : Z) : wrap64 (x + wrap64 y) = wrap64 (x + y).
Proof. unfold wrap64. apply Zplus_mod_idemp_r. Qed.

(** ** Page-table entries *)

Module PageTableFacts.
Import PageTable.

Lemma index_slice (addr shift : Z) :
  0 <= shift ->
  Z.land (Z.shiftr addr shift) 511 = (addr / 2 ^ shift) mod 2 ^ 9.
Proof.
  intros Hs. change 511 with (Z.ones 9).
  rewrite Z.land_ones by lia. now rewrite Z.shiftr_div_pow2.
Qed.

Lemma slice_bits (addr shift i : Z) :
  0 <= shift -> 0 <= i ->
  Z.testbit ((addr / 2 ^ shift) mod 2 ^ 9) i
  = (i <? 9) && Z.testbit addr (i + shift).
Proof.
  intros Hs Hi. rewrite Z.testbit_mod_pow2 by lia.
  now rewrite Z.div_pow2_bits.
Qed.

Lemma PTL4_INDEX_eq addr : PTL4_INDEX addr = (addr / 2 ^ 39) mod 2 ^ 9.
Proof. apply (index_slice addr 39). lia. Qed.

Lemma PTL3_INDEX_eq addr : PTL3_INDEX addr = (addr / 2 ^ 30) mod 2 ^ 9.
Proof. apply (index_slice addr 30). lia. Qed.

Lemma PTL2_INDEX_eq addr : PTL2_INDEX addr = (addr / 2 ^ 21) mod 2 ^ 9.
Proof. apply (index_slice addr 21). lia. Qed.

Lemma PTL1_INDEX_eq addr : PTL1_INDEX addr = (addr / 2 ^ 12) mod 2 ^ 9.
Proof. apply (index_slice addr 12). lia. Qed.

Lemma PAGE_OFFSET_eq addr : PAGE_OFFSET addr = addr mod 2 ^ 12.
Proof.
  unfold PAGE_OFFSET. change (not64 PTL1_MASK) with (Z.ones 12).
  apply Z.land_ones. lia.
Qed.

Lemma split_9 (a k : Z) :
  0 <= k ->
  a mod 2 ^ (k + 9) = a mod 2 ^ k + 2 ^ k * ((a / 2 ^ k) mod 2 ^ 9).
Proof.
  intros Hk. rewrite Z.pow_add_r by lia.
  apply Z.rem_mul_r; [apply Z.pow_nonzero | ]; lia.
Qed.

(** C8.  For every virtual address, each of the four index macros is the
    9-bit field of the address at bits 47..39, 38..30, 29..21 and 20..12 (so
    below 512), [PAGE_OFFSET] is the field at bits 11..0 (below 4096), and
    the five fields recombined give back the address modulo 2^48. *)
Theorem C8_index_split (addr : Z) :
  PTL4_INDEX addr = (addr / 2 ^ 39) mod 2 ^ 9 /\
  PTL3_INDEX addr = (addr / 2 ^ 30) mod 2 ^ 9 /\
  PTL2_INDEX addr = (addr / 2 ^ 21) mod 2 ^ 9 /\
  PTL1_INDEX addr = (addr / 2 ^ 12) mod 2 ^ 9 /\
  PAGE_OFFSET addr = addr mod 2 ^ 12 /\
  (forall i, 0 <= i ->
     Z.testbit (PTL4_INDEX addr) i = (i <? 9) && Z.testbit addr (i + 39) /\
     Z.testbit (PTL3_INDEX addr) i = (i <? 9) && Z.testbit addr (i + 30) /\
     Z.testbit (PTL2_INDEX addr) i = (i <? 9) && Z.testbit addr (i + 21) /\
     Z.testbit (PTL1_INDEX addr) i = (i <? 9) && Z.testbit addr (i + 12) /\
     Z.testbit (PAGE_OFFSET addr) i = (i <? 12) && Z.testbit addr i) /\
  0 <= PTL4_INDEX addr < 512 /\
  0 <= PTL3_INDEX addr < 512 /\
  0 <= PTL2_INDEX addr < 512 /\
  0 <= PTL1_INDEX addr < 512 /\
  0 <= PAGE_OFFSET addr < 4096 /\
  (((PTL4_INDEX addr * 512 + PTL3_INDEX addr) * 512 + PTL2_INDEX addr) * 512
   + PTL1_INDEX addr) * 4096 + PAGE_OFFSET addr
  = addr mod 2 ^ 48.
Proof.
  rewrite PTL4_INDEX_eq, PTL3_INDEX_eq, PTL2_INDEX_eq, PTL1_INDEX_eq,
    PAGE_OFFSET_eq.
  repeat (split; [reflexivity | ]).
  split.
  { intros i Hi. rewrite !slice_bits by lia.
    rewrite Z.testbit_mod_pow2 by lia. repeat split; reflexivity. }
  assert (B9 : forall x, 0 <= x mod 2 ^ 9 < 512)
    by (intro x; apply Z.mod_pos_bound; lia).
  repeat (split; [apply B9 | ]).
  split; [apply Z.mod_pos_bound; lia | ].
  change 48 with (39 + 9). rewrite (split_9 addr 39) by lia.
  change 39 with (30 + 9). rewrite (split_9 addr 30) by lia.
  change 30 with (21 + 9). rewrite (split_9 addr 21) by lia.
  change 21 with (12 + 9). rewrite (split_9 addr 12) by lia.
  change (2 ^ (12 + 9)) with 2097152.
  change (2 ^ (12 + 9 + 9)) with 1073741824.
  change (2 ^ (12 + 9 + 9 + 9)) with 549755813888.
  change (2 ^ 12) with 4096. lia.
Qed.

Lemma set_frame_base_accepts (base : Z) (e : PageTableEntry) :
  Z.land base PHYS_MASK = base ->
  set_frame_base base e
  = Ret (mkPTE (Z.lor (Z.land (m_raw e) (Z.lnot PHYS_MASK)) base)).
Proof.
  intros H. unfold set_frame_base. now rewrite (proj2 (Z.eqb_eq _ _) H).
Qed.

Lemma set_flags_accepts (page_flags : Z) (e : PageTableEntry) :
  Z.land page_flags (Z.lnot PHYS_MASK) = page_flags ->
  set_flags page_flags e
  = Ret (mkPTE (Z.lor (Z.land (m_raw e) PHYS_MASK) page_flags)).
Proof.
  intros H. unfold set_flags. now rewrite (proj2 (Z.eqb_eq _ _) H).
Qed.

Lemma base_has_no_flag_bits (base : Z) :
  Z.land base PHYS_MASK = base -> Z.land base (Z.lnot PHYS_MASK) = 0.
Proof.
  intros H. rewrite <- H, <- Z.land_assoc, Z.land_lnot_diag.
  apply Z.land_0_r.
Qed.

Lemma flags_have_no_base_bits (page_flags : Z) :
  Z.land page_flags (Z.lnot PHYS_MASK) = page_flags ->
  Z.land page_flags PHYS_MASK = 0.
Proof.
  intros H. rewrite <- H, <- Z.land_assoc.
  rewrite (Z.land_comm (Z.lnot PHYS_MASK)), Z.land_lnot_diag.
  apply Z.land_0_r.
Qed.

Lemma masked_out (x : Z) : Z.land (Z.land x (Z.lnot PHYS_MASK)) PHYS_MASK = 0.
Proof.
  rewrite <- Z.land_assoc, (Z.land_comm (Z.lnot PHYS_MASK)), Z.land_lnot_diag.
  apply Z.land_0_r.
Qed.

Lemma masked_in (x : Z) : Z.land (Z.land x PHYS_MASK) (Z.lnot PHYS_MASK) = 0.
Proof. rewrite <- Z.land_assoc, Z.land_lnot_diag. apply Z.land_0_r. Qed.

(** C7.  With a base inside [PHYS_MASK] and flags outside it,
    [set_frame_base] then [set_flags] succeed, [frame_base] reads the base
    back and the flag bits are the flags; the first write keeps the flag
    bits of the entry and the second keeps its frame base.  A base with a
    bit outside the mask, and flags with a bit inside it, fail the
    [ASSERT]. *)
Theorem C7_frame_base_flags_roundtrip (e : PageTableEntry) (base flags : Z) :
  (Z.land base PHYS_MASK = base ->
   Z.land flags (Z.lnot PHYS_MASK) = flags ->
   exists e1 e2,
     set_frame_base base e = Ret e1 /\
     set_flags flags e1 = Ret e2 /\
     frame_base e2 = base /\
     PHYS_FLAGS (raw e2) = flags /\
     PHYS_FLAGS (raw e1) = PHYS_FLAGS (raw e) /\
     frame_base e2 = frame_base e1) /\
  (Z.land base PHYS_MASK <> base ->
   set_frame_base base e = AssertFail "invalid base") /\
  (Z.land flags (Z.lnot PHYS_MASK) <> flags ->
   set_flags flags e = AssertFail "invalig page flags").
Proof.
  split; [ | split].
  - intros Hb Hf. eexists. eexists.
    split; [apply set_frame_base_accepts; assumption | ].
    split; [apply set_flags_accepts; assumption | ].
    unfold frame_base, PHYS_FLAGS, raw; cbn [m_raw].
    rewrite !Z.land_lor_distr_l.
    rewrite masked_out, masked_in, Hb, Hf.
    rewrite (base_has_no_flag_bits base Hb).
    rewrite (flags_have_no_base_bits flags Hf).
    rewrite <- !Z.land_assoc, !Z.land_diag.
    rewrite !Z.lor_0_l, !Z.lor_0_r. repeat split; auto.
  - intros Hb. unfold set_frame_base.
    now rewrite (proj2 (Z.eqb_neq _ _) Hb).
  - intros Hf. unfold set_flags.
    now rewrite (proj2 (Z.eqb_neq _ _) Hf).
Qed.

(** The round trip at base [0x7f000], flags [Present|ReadWrite|NoExecute]
    on an entry with every bit set, and the two rejections at the
    misaligned base [0x1001] and the flag word [0x1000]. *)
Lemma C7_frame_base_flags_roundtrip_witness :
  (exists e1 e2,
     set_frame_base 0x7f000 (mkPTE UINT64_MAX) = Ret e1 /\
     set_flags (Z.lor (Z.lor Present ReadWrite) NoExecute) e1 = Ret e2 /\
     frame_base e2 = 0x7f000 /\
     PHYS_FLAGS (raw e2) = Z.lor (Z.lor Present ReadWrite) NoExecute /\
     PHYS_FLAGS (raw e1) = PHYS_FLAGS (raw (mkPTE UINT64_MAX)) /\
     frame_base e2 = frame_base e1) /\
  set_frame_base 0x1001 (mkPTE 0) = AssertFail "invalid base" /\
  set_flags 0x1000 (mkPTE 0) = AssertFail "invalig page flags".
Proof.
  split; [ | split].
  - apply (C7_frame_base_flags_roundtrip (mkPTE UINT64_MAX) 0x7f000
             (Z.lor (Z.lor Present ReadWrite) NoExecute)); reflexivity.
  - apply (C7_frame_base_flags_roundtrip (mkPTE 0) 0x1001 0).
    vm_compute. discriminate.
  - apply (C7_frame_base_flags_roundtrip (mkPTE 0) 0 0x1000).
    vm_compute. discriminate.
Defined.

End PageTableFacts.

(** ** Register conversion *)

(** What [kvm_to_dwarf_regs] stores in each slot: the hardware register of
    the same name, except for [Rcx], which receives [rdx]. *)
Lemma kvm_to_dwarf_regs_slots (kregs : kvm_regs) (regs : Regs)
      (r : DwarfReg.t) :
  kvm_to_dwarf_regs kregs regs r
  = match r with
    | DwarfReg.Rcx => rdx kregs
    | _ => same_name_register kregs r
    end.
Proof. destruct r; reflexivity. Qed.

(** The array the caller passes in does not matter. *)
Lemma kvm_to_dwarf_regs_overwrites (kregs : kvm_regs) (regs regs' : Regs)
      (r : DwarfReg.t) :
  kvm_to_dwarf_regs kregs regs r = kvm_to_dwarf_regs kregs regs' r.
Proof. destruct r; reflexivity. Qed.

Lemma kvm_to_dwarf_regs_ReturnAddress (kregs : kvm_regs) (regs : Regs) :
  kvm_to_dwarf_regs kregs regs DwarfReg.ReturnAddress = rip kregs.
Proof. reflexivity. Qed.

(** C1.  On a snapshot with [rcx = 1] and [rdx = 2] the [Rcx] slot holds 2,
    the value of [rdx], and not 1, the value of the register of its own
    name; [Rdx] holds 2 as well. *)
Theorem C1_Rcx_slot_receives_rdx :
  kvm_to_dwarf_regs kregs_rcx1_rdx2 regs_uninit DwarfReg.Rcx = 2 /\
  kvm_to_dwarf_regs kregs_rcx1_rdx2 regs_uninit DwarfReg.Rdx = 2 /\
  same_name_register kregs_rcx1_rdx2 DwarfReg.Rcx = 1 /\
  kvm_to_dwarf_regs kregs_rcx1_rdx2 regs_uninit DwarfReg.Rcx
  <> same_name_register kregs_rcx1_rdx2 DwarfReg.Rcx.
Proof. repeat split. vm_compute. discriminate. Qed.

(** ** Parsing: load address and initial break *)

Lemma seg_step_load_addr f s ph :
  st_load_addr (seg_step f s ph)
  = if is_load ph then Z.min (st_load_addr s) (p_vaddr ph)
    else st_load_addr s.
Proof.
  unfold seg_step, is_load. cbn [segment_of seg_type seg_vaddr seg_memsize].
  destruct (p_type ph =? PT_LOAD); reflexivity.
Qed.

Lemma seg_step_initial_brk f s ph :
  st_initial_brk (seg_step f s ph)
  = if is_load ph then Z.max (st_initial_brk s) (page_end ph)
    else st_initial_brk s.
Proof.
  unfold seg_step, is_load, page_end.
  cbn [segment_of seg_type seg_vaddr seg_memsize].
  destruct (p_type ph =? PT_LOAD); reflexivity.
Qed.

Lemma seg_step_segments f s ph :
  st_segments (seg_step f s ph) = (st_segments s ++ [segment_of ph])%list.
Proof.
  unfold seg_step. cbn [segment_of seg_type].
  destruct (p_type ph =? PT_LOAD); reflexivity.
Qed.

(** The loop reduces to a minimum, and a maximum, over the loadable
    headers alone. *)
Lemma fold_seg_step_load_addr f l : forall s,
  st_load_addr (fold_left (seg_step f) l s)
  = fold_left Z.min (map p_vaddr (filter is_load l)) (st_load_addr s).
Proof.
  induction l as [ | ph l IH]; intros s; [reflexivity | ].
  cbn [fold_left filter]. rewrite IH, seg_step_load_addr.
  destruct (is_load ph); reflexivity.
Qed.

Lemma fold_seg_step_initial_brk f l : forall s,
  st_initial_brk (fold_left (seg_step f) l s)
  = fold_left Z.max (map page_end (filter is_load l)) (st_initial_brk s).
Proof.
  induction l as [ | ph l IH]; intros s; [reflexivity | ].
  cbn [fold_left filter]. rewrite IH, seg_step_initial_brk.
  destruct (is_load ph); reflexivity.
Qed.

Lemma fold_seg_step_segments f l : forall s,
  st_segments (fold_left (seg_step f) l s)
  = (st_segments s ++ map segment_of l)%list.
Proof.
  induction l as [ | ph l IH]; intros s; cbn [fold_left map].
  - now rewrite app_nil_r.
  - rewrite IH, seg_step_segments, <- app_assoc. reflexivity.
Qed.

Lemma fold_min_spec (l : list Z) : forall a,
  fold_left Z.min l a <= a /\
  (forall x, In x l -> fold_left Z.min l a <= x) /\
  (fold_left Z.min l a = a \/ In (fold_left Z.min l a) l).
Proof.
  induction l as [ | y l IH]; intros a; cbn [fold_left In].
  - repeat split; [lia | contradiction | now left].
  - destruct (IH (Z.min a y)) as (Hle & Hall & Hin).
    split; [lia | split].
    + intros x [<- | Hx]; [lia | now apply Hall].
    + destruct Hin as [Heq | Hin]; [ | now right; right].
      destruct (Z.min_spec a y) as [[_ Hm] | [_ Hm]]; rewrite Hm in Heq |- *.
      * now left.
      * right; left. now symmetry.
Qed.

Lemma fold_max_spec (l : list Z) : forall a,
  a <= fold_left Z.max l a /\
  (forall x, In x l -> x <= fold_left Z.max l a) /\
  (fold_left Z.max l a = a \/ In (fold_left Z.max l a) l).
Proof.
  induction l as [ | y l IH]; intros a; cbn [fold_left In].
  - repeat split; [lia | contradiction | now left].
  - destruct (IH (Z.max a y)) as (Hle & Hall & Hin).
    split; [lia | split].
    + intros x [<- | Hx]; [lia | now apply Hall].
    + destruct Hin as [Heq | Hin]; [ | now right; right].
      destruct (Z.max_spec a y) as [[_ Hm] | [_ Hm]]; rewrite Hm in Heq |- *.
      * right; left. now symmetry.
      * now left.
Qed.

Lemma PAGE_CEIL_nonneg (addr : Z) : 0 <= PAGE_CEIL addr.
Proof.
  unfold PAGE_CEIL. apply Z.land_nonneg. left. apply wrap64_range.
Qed.

(** Without wrap-around [PAGE_CEIL] is the least multiple of the page size
    that is not below its argument. *)
Lemma PAGE_CEIL_no_wrap (addr : Z) :
  0 <= addr -> addr + PAGE_SIZE - 1 < 2 ^ 64 ->
  PAGE_CEIL addr = PAGE_SIZE * ((addr + PAGE_SIZE - 1) / PAGE_SIZE).
Proof.
  unfold PAGE_CEIL, PAGE_SIZE. intros H0 H1.
  rewrite wrap64_small by lia.
  change (4096 - 1) with (Z.ones 12).
  rewrite <- Z.ldiff_land, Z.ldiff_ones_r by lia.
  rewrite Z.shiftl_mul_pow2, Z.shiftr_div_pow2 by lia.
  change (2 ^ 12) with 4096. lia.
Qed.

Lemma init_inv path f p :
  init path f = Ret p ->
  ei_class (ehdr f) = ELFCLASS /\
  e_machine (ehdr f) = EM /\
  (e_type (ehdr f) = ET_EXEC \/ e_type (ehdr f) = ET_DYN) /\
  (e_type (ehdr f) = ET_DYN -> st_load_addr (get_segments f) = 0) /\
  m_type p = e_type (ehdr f) /\
  m_entry p = e_entry (ehdr f) /\
  m_load_addr p = st_load_addr (get_segments f) /\
  m_initial_brk p = st_initial_brk (get_segments f) /\
  m_segments p = map segment_of (phdr f) /\
  m_sections p = get_sections f.
Proof.
  unfold init, ASSERT, bind.
  destruct (ei_class (ehdr f) =? ELFCLASS) eqn:Hc; [ | discriminate].
  destruct (e_machine (ehdr f) =? EM) eqn:Hm; [ | discriminate].
  destruct ((e_type (ehdr f) =? ET_EXEC) || (e_type (ehdr f) =? ET_DYN))
    eqn:Ht; [ | discriminate].
  apply Z.eqb_eq in Hc, Hm. apply orb_true_iff in Ht.
  rewrite !Z.eqb_eq in Ht.
  destruct (e_type (ehdr f) =? ET_DYN) eqn:Hd.
  - destruct (st_load_addr (get_segments f) =? 0) eqn:Hl; [ | discriminate].
    apply Z.eqb_eq in Hl. intros [= <-]. cbn.
    repeat split; auto.
    unfold get_segments. now rewrite fold_seg_step_segments.
  - apply Z.eqb_neq in Hd. intros [= <-]. cbn.
    repeat split; auto; [contradiction | ].
    unfold get_segments. now rewrite fold_seg_step_segments.
Qed.

(** C2.  After a successful [init] of a file with a loadable segment,
    [load_addr] is the least [p_vaddr] of the loadable program headers and
    [initial_brk] is the greatest [PAGE_CEIL (p_vaddr + p_memsz)] of the
    loadable program headers (64-bit arithmetic; the mathematical
    page-ceiling whenever the sum does not wrap).  Both values are the same
    for any other file with the same loadable headers. *)
Theorem C2_load_addr_min_initial_brk_max (path : string) (f : ElfFile)
        (p : ElfParser) :
  init path f = Ret p ->
  (exists ph, In ph (phdr f) /\ p_type ph = PT_LOAD) ->
  (forall ph, In ph (phdr f) -> p_type ph = PT_LOAD -> in_u64 (p_vaddr ph)) ->
  (exists ph, In ph (phdr f) /\ p_type ph = PT_LOAD /\
              load_addr p = p_vaddr ph) /\
  (forall ph, In ph (phdr f) -> p_type ph = PT_LOAD ->
              load_addr p <= p_vaddr ph) /\
  (exists ph, In ph (phdr f) /\ p_type ph = PT_LOAD /\
              initial_brk p = page_end ph) /\
  (forall ph, In ph (phdr f) -> p_type ph = PT_LOAD ->
              page_end ph <= initial_brk p) /\
  (forall ph, 0 <= p_vaddr ph + p_memsz ph ->
              p_vaddr ph + p_memsz ph + PAGE_SIZE - 1 < 2 ^ 64 ->
              page_end ph
              = PAGE_SIZE
                * ((p_vaddr ph + p_memsz ph + PAGE_SIZE - 1) / PAGE_SIZE)) /\
  (forall path' f' p',
      init path' f' = Ret p' ->
      filter is_load (phdr f') = filter is_load (phdr f) ->
      load_addr p' = load_addr p /\ initial_brk p' = initial_brk p).
Proof.
  intros Hinit (ph0 & Hin0 & Hty0) Hrange.
  destruct (init_inv _ _ _ Hinit) as (_ & _ & _ & _ & _ & _ & Hla & Hbrk & _).
  unfold load_addr, initial_brk. rewrite Hla, Hbrk. unfold get_segments.
  rewrite fold_seg_step_load_addr, fold_seg_step_initial_brk.
  cbn [seg_state0 st_load_addr st_initial_brk].
  assert (Hmem : forall ph, In ph (phdr f) -> p_type ph = PT_LOAD ->
                            In ph (filter is_load (phdr f))).
  { intros ph Hin Hty. apply filter_In. split; [assumption | ].
    unfold is_load. now apply Z.eqb_eq. }
  assert (Hback : forall ph, In ph (filter is_load (phdr f)) ->
                             In ph (phdr f) /\ p_type ph = PT_LOAD).
  { intros ph Hin. apply filter_In in Hin. destruct Hin as [Hin Hty].
    split; [assumption | ]. now apply Z.eqb_eq. }
  set (loads := filter is_load (phdr f)) in *.
  destruct (fold_min_spec (map p_vaddr loads) UINT64_MAX)
    as (_ & Hmin & Hmin_in).
  destruct (fold_max_spec (map page_end loads) 0) as (_ & Hmax & Hmax_in).
  assert (Hlow : forall ph, In ph (phdr f) -> p_type ph = PT_LOAD ->
            fold_left Z.min (map p_vaddr loads) UINT64_MAX <= p_vaddr ph).
  { intros ph Hin Hty. apply Hmin, in_map, Hmem; assumption. }
  assert (Hhigh : forall ph, In ph (phdr f) -> p_type ph = PT_LOAD ->
            page_end ph <= fold_left Z.max (map page_end loads) 0).
  { intros ph Hin Hty. apply Hmax, in_map, Hmem; assumption. }
  repeat apply conj.
  - destruct Hmin_in as [Heq | Hin].
    + exists ph0. repeat split; try assumption.
      specialize (Hlow ph0 Hin0 Hty0). specialize (Hrange ph0 Hin0 Hty0).
      unfold in_u64, UINT64_MAX in *. lia.
    + apply in_map_iff in Hin. destruct Hin as (ph & Heq & Hin).
      destruct (Hback ph Hin). exists ph. now repeat split.
  - exact Hlow.
  - destruct Hmax_in as [Heq | Hin].
    + exists ph0. repeat split; try assumption.
      specialize (Hhigh ph0 Hin0 Hty0).
      pose proof (PAGE_CEIL_nonneg (wrap64 (p_vaddr ph0 + p_memsz ph0))).
      unfold page_end in *. lia.
    + apply in_map_iff in Hin. destruct Hin as (ph & Heq & Hin).
      destruct (Hback ph Hin). exists ph. now repeat split.
  - exact Hhigh.
  - intros ph H0 H1. unfold page_end.
    rewrite wrap64_small by (unfold PAGE_SIZE in H1; lia).
    now apply PAGE_CEIL_no_wrap.
  - intros path' f' p' Hinit' Hsame.
    destruct (init_inv _ _ _ Hinit')
      as (_ & _ & _ & _ & _ & _ & Hla' & Hbrk' & _).
    rewrite Hla', Hbrk'. unfold get_segments.
    rewrite fold_seg_step_load_addr, fold_seg_step_initial_brk, Hsame.
    split; reflexivity.
Qed.

(** C2 on [file_sample]: the load address is 0 and the break is [0x3000],
    the page-ceiling of [0x2345]; the note segment at [0x9000] plays no
    part. *)
Lemma C2_load_addr_min_initial_brk_max_witness :
  init "a.out" (file_sample ET_EXEC) = Ret parsed_sample /\
  load_addr parsed_sample = 0 /\
  initial_brk parsed_sample = 0x3000 /\
  (forall ph, In ph phdr_sample -> p_type ph = PT_LOAD ->
              load_addr parsed_sample <= p_vaddr ph) /\
  (forall ph, In ph phdr_sample -> p_type ph = PT_LOAD ->
              page_end ph <= initial_brk parsed_sample).
Proof.
  assert (Hinit : init "a.out" (file_sample ET_EXEC) = Ret parsed_sample)
    by reflexivity.
  assert (Hload : exists ph, In ph (phdr (file_sample ET_EXEC)) /\
                             p_type ph = PT_LOAD).
  { exists (mkPhdr PT_LOAD 5 0 0 0 0x1800 0x1800 0x1000).
    split; [right; right; left | ]; reflexivity. }
  assert (Hrange : forall ph, In ph (phdr (file_sample ET_EXEC)) ->
                     p_type ph = PT_LOAD -> in_u64 (p_vaddr ph)).
  { intros ph [<- | [<- | [<- | []]]] _; unfold in_u64; simpl; lia. }
  destruct (C2_load_addr_min_initial_brk_max "a.out" (file_sample ET_EXEC)
              parsed_sample Hinit Hload Hrange)
    as (_ & Hmin & _ & Hmax & _).
  repeat split; assumption.
Defined.

(** ** Relocation *)

Lemma wrap64_sub (x y : Z) : wrap64 (wrap64 x - wrap64 y) = wrap64 (x - y).
Proof. unfold wrap64. symmetry. apply Zminus_mod. Qed.

Lemma wrap64_shift_twice (x a b l : Z) :
  wrap64 (wrap64 (x + wrap64 (a - l)) + wrap64 (b - a))
  = wrap64 (x + wrap64 (b - l)).
Proof.
  rewrite wrap64_add_l, !wrap64_add_r.
  replace (x + wrap64 (a - l) + (b - a)) with (x + (b - a) + wrap64 (a - l))
    by lia.
  rewrite wrap64_add_r. f_equal. lia.
Qed.

Lemma set_load_addr_pie (new_load_addr : Z) (p : ElfParser) :
  m_type p = ET_DYN ->
  set_load_addr new_load_addr p
  = let diff := wrap64 (new_load_addr - m_load_addr p) in
    Ret {| m_path := m_path p;
           m_phinfo := m_phinfo p;
           m_type := m_type p;
           m_entry := wrap64 (m_entry p + diff);
           m_load_addr := new_load_addr;
           m_initial_brk := wrap64 (m_initial_brk p + diff);
           m_interpreter := m_interpreter p;
           m_segments := map (shift_segment diff) (m_segments p);
           m_sections := map (shift_section diff) (m_sections p);
           m_symbols := map (shift_symbol diff) (m_symbols p);
           m_dependencies := m_dependencies p;
           m_debug := m_debug p |}.
Proof. intros H. unfold set_load_addr. rewrite H. reflexivity. Qed.

Lemma set_load_addr_not_pie (new_load_addr : Z) (p : ElfParser) :
  m_type p <> ET_DYN ->
  set_load_addr new_load_addr p
  = AssertFail "setting load_addr to not PIE binary".
Proof.
  intros H. unfold set_load_addr.
  now rewrite (proj2 (Z.eqb_neq _ _) H).
Qed.

Lemma Forall2_map_r {A B : Type} (R : A -> B -> Prop) (g : A -> B)
      (l : list A) :
  (forall x, In x l -> R x (g x)) -> Forall2 R l (map g l).
Proof.
  induction l as [ | x l IH]; intros H; cbn [map]; constructor.
  - apply H. now left.
  - apply IH. intros y Hy. apply H. now right.
Qed.

(** C3.  On a position-independent image [set_load_addr] succeeds and adds
    one and the same delta, the new load address minus the old one, to the
    entry point, the initial break, the virtual and physical address of
    every segment, the address of every section and the value of every
    symbol (64-bit arithmetic), leaving every other field alone.  The
    difference of two symbol values is therefore unchanged as a 64-bit
    difference, and exactly so whenever the two symbols keep their order. *)
Theorem C3_set_load_addr_uniform_shift (p : ElfParser) (new_load_addr : Z) :
  m_type p = ET_DYN ->
  exists p',
    set_load_addr new_load_addr p = Ret p' /\
    let delta := wrap64 (new_load_addr - load_addr p) in
    load_addr p' = new_load_addr /\
    entry p' = wrap64 (entry p + delta) /\
    initial_brk p' = wrap64 (initial_brk p + delta) /\
    Forall2 (segment_shifted delta) (segments p) (segments p') /\
    Forall2 (section_shifted delta) (sections p) (sections p') /\
    Forall2 (symbol_shifted delta) (symbols p) (symbols p') /\
    (forall i j s1 s2 s1' s2',
        nth_error (symbols p) i = Some s1 ->
        nth_error (symbols p) j = Some s2 ->
        nth_error (symbols p') i = Some s1' ->
        nth_error (symbols p') j = Some s2' ->
        wrap64 (sym_value s2' - sym_value s1')
        = wrap64 (sym_value s2 - sym_value s1) /\
        (in_u64 (sym_value s1) -> in_u64 (sym_value s2) ->
         sym_value s1 <= sym_value s2 -> sym_value s1' <= sym_value s2' ->
         sym_value s2' - sym_value s1' = sym_value s2 - sym_value s1)).
Proof.
  intros Hpie. eexists. split; [apply set_load_addr_pie; assumption | ].
  cbn zeta. unfold load_addr, entry, initial_brk, segments, sections, symbols.
  cbn [m_load_addr m_entry m_initial_brk m_segments m_sections m_symbols].
  set (delta := wrap64 (new_load_addr - m_load_addr p)).
  repeat apply conj; try reflexivity.
  - apply Forall2_map_r. intros s _. repeat split.
  - apply Forall2_map_r. intros s _. repeat split.
  - apply Forall2_map_r. intros s _. repeat split.
  - intros i j s1 s2 s1' s2' H1 H2 H1' H2'.
    rewrite nth_error_map in H1', H2'. rewrite H1 in H1'. rewrite H2 in H2'.
    injection H1' as <-. injection H2' as <-. cbn [shift_symbol sym_value].
    assert (Hmod : wrap64 (wrap64 (sym_value s2 + delta)
                           - wrap64 (sym_value s1 + delta))
                   = wrap64 (sym_value s2 - sym_value s1)).
    { rewrite wrap64_sub. f_equal. lia. }
    split; [exact Hmod | ].
    intros R1 R2 Hle Hle'.
    pose proof (wrap64_range (sym_value s1 + delta)).
    pose proof (wrap64_range (sym_value s2 + delta)).
    unfold in_u64 in *.
    rewrite (wrap64_small (_ - _)) in Hmod by lia.
    rewrite (wrap64_small (sym_value s2 - sym_value s1)) in Hmod by lia.
    exact Hmod.
Qed.

(** C3 on [pie_image], moved from 0 to [0x555555554000]. *)
Lemma C3_set_load_addr_uniform_shift_witness :
  exists p',
    set_load_addr 0x555555554000 pie_image = Ret p' /\
    load_addr p' = 0x555555554000 /\
    entry p' = 0x555555555040 /\
    initial_brk p' = 0x555555557000 /\
    map sym_value (symbols p') = [0x555555555000; 0x555555555040].
Proof.
  destruct (C3_set_load_addr_uniform_shift pie_image 0x555555554000 eq_refl)
    as (p' & Hret & Hrest).
  exists p'. split; [exact Hret | ].
  assert (Hval : set_load_addr 0x555555554000 pie_image = Ret p')
    by exact Hret.
  vm_compute in Hval. injection Hval as <-.
  repeat split.
Defined.

(** C4.  On a position-independent image, relocating to [A] and then to
    [B] is relocating to [B] at once: both succeed, with the same image
    (entry point, break, segments, sections, symbols and all) as result.
    This holds from any starting load address, 0 included. *)
Theorem C4_set_load_addr_twice (p : ElfParser) (A B : Z) :
  m_type p = ET_DYN ->
  exists pA pB,
    set_load_addr A p = Ret pA /\
    set_load_addr B p = Ret pB /\
    set_load_addr B pA = Ret pB.
Proof.
  intros Hpie. eexists. eexists.
  split; [apply set_load_addr_pie; assumption | ].
  split; [apply set_load_addr_pie; assumption | ].
  rewrite set_load_addr_pie by assumption.
  cbn zeta. cbn [m_path m_phinfo m_type m_entry m_load_addr m_initial_brk
                 m_interpreter m_segments m_sections m_symbols
                 m_dependencies m_debug].
  rewrite !map_map, !wrap64_shift_twice.
  do 2 f_equal.
  - apply map_ext. intros s. unfold shift_segment.
    cbn [seg_type seg_flags seg_offset seg_vaddr seg_paddr seg_filesize
         seg_memsize seg_align].
    now rewrite !wrap64_shift_twice.
  - apply map_ext. intros s. unfold shift_section.
    cbn [sec_name sec_type sec_flags sec_addr sec_offset sec_size sec_link
         sec_info sec_addralign sec_entsize].
    now rewrite !wrap64_shift_twice.
  - apply map_ext. intros s. unfold shift_symbol.
    cbn [sym_name sym_type sym_binding sym_visibility sym_shndx sym_value
         sym_size].
    now rewrite !wrap64_shift_twice.
Qed.

(** C4 on [pie_image] (load address 0), by way of [0x7f0000000000] to
    [0x555555554000]. *)
Lemma C4_set_load_addr_twice_witness :
  exists pA pB,
    set_load_addr 0x7f0000000000 pie_image = Ret pA /\
    set_load_addr 0x555555554000 pie_image = Ret pB /\
    set_load_addr 0x555555554000 pA = Ret pB.
Proof.
  apply (C4_set_load_addr_twice pie_image 0x7f0000000000 0x555555554000).
  reflexivity.
Defined.

(** ** Lookups by name and by address *)

Lemma section_limits_in_found (pre post : list section_t) (s : section_t)
      (name : string) :
  sec_name s = name ->
  (forall s0, In s0 pre -> sec_name s0 <> name) ->
  section_limits_in (pre ++ s :: post) name
  = Ret (sec_addr s, wrap64 (sec_addr s + sec_size s)).
Proof.
  intros Hs. induction pre as [ | s0 pre IH]; intros Hpre; cbn.
  - rewrite (proj2 (String.eqb_eq _ _) Hs). reflexivity.
  - rewrite (proj2 (String.eqb_neq _ _) (Hpre s0 (or_introl eq_refl))).
    apply IH. intros s1 H1. apply Hpre. now right.
Qed.

Lemma section_limits_in_missing (l : list section_t) (name : string) :
  (forall s, In s l -> sec_name s <> name) ->
  section_limits_in l name = AssertFail "not found section".
Proof.
  induction l as [ | s l IH]; intros H; cbn; [reflexivity | ].
  rewrite (proj2 (String.eqb_neq _ _) (H s (or_introl eq_refl))).
  apply IH. intros s1 H1. apply H. now right.
Qed.

Lemma symbol_limits_in_found (pre post : list symbol_t) (s : symbol_t)
      (name : string) :
  sym_name s = name ->
  (forall s0, In s0 pre -> sym_name s0 <> name) ->
  symbol_limits_in (pre ++ s :: post) name
  = Ret (sym_value s, wrap64 (sym_value s + sym_size s)).
Proof.
  intros Hs. induction pre as [ | s0 pre IH]; intros Hpre; cbn.
  - rewrite (proj2 (String.eqb_eq _ _) Hs). reflexivity.
  - rewrite (proj2 (String.eqb_neq _ _) (Hpre s0 (or_introl eq_refl))).
    apply IH. intros s1 H1. apply Hpre. now right.
Qed.

Lemma symbol_limits_in_missing (l : list symbol_t) (name : string) :
  (forall s, In s l -> sym_name s <> name) ->
  symbol_limits_in l name = AssertFail "not found symbol".
Proof.
  induction l as [ | s l IH]; intros H; cbn; [reflexivity | ].
  rewrite (proj2 (String.eqb_neq _ _) (H s (or_introl eq_refl))).
  apply IH. intros s1 H1. apply H. now right.
Qed.

(** A list either has a first element with the name or has none. *)
Lemma first_section_named (l : list section_t) (name : string) :
  (exists pre s post, l = (pre ++ s :: post)%list /\ sec_name s = name /\
                      forall s0, In s0 pre -> sec_name s0 <> name) \/
  (forall s, In s l -> sec_name s <> name).
Proof.
  induction l as [ | s l IH].
  - right. intros s [].
  - destruct (String.eqb_spec (sec_name s) name) as [Heq | Hne].
    + left. exists [], s, l. repeat split; [assumption | intros s0 []].
    + destruct IH as [(pre & s1 & post & -> & Hs1 & Hpre) | Hnone].
      * left. exists (s :: pre), s1, post. repeat split; [assumption | ].
        intros s0 [<- | H0]; [assumption | now apply Hpre].
      * right. intros s0 [<- | H0]; [assumption | now apply Hnone].
Qed.

(** C5 as stated fails in its not-found part: no result is returned.  On
    [pie_image], whose one section is [.text] and whose symbols are [main]
    and [helper], looking up the section [.bss] or the symbol [start] fails
    the [ASSERT], and no interval is returned. *)
Lemma C5_not_found_is_assert_failure :
  (forall s, In s (sections pie_image) -> sec_name s <> ".bss") /\
  section_limits pie_image ".bss" = AssertFail "not found section" /\
  ~ (exists r, section_limits pie_image ".bss" = Ret r) /\
  (forall s, In s (symbols pie_image) -> sym_name s <> "start") /\
  symbol_limits pie_image "start" = AssertFail "not found symbol" /\
  ~ (exists r, symbol_limits pie_image "start" = Ret r).
Proof.
  repeat apply conj.
  - intros s [<- | []]. discriminate.
  - reflexivity.
  - intros (r & Hr). discriminate Hr.
  - intros s [<- | [<- | []]]; discriminate.
  - reflexivity.
  - intros (r & Hr). discriminate Hr.
Qed.

(** C5, amended.  When a section (a symbol) has the name, [section_limits]
    ([symbol_limits]) returns the interval of the first one, from its
    address to its address plus its size (the 64-bit sum, which is the
    plain sum when that fits); when none has the name the call fails its
    [ASSERT] and returns no interval. *)
Theorem C5_limits_found_or_assert_failure (p : ElfParser) (name : string) :
  (forall pre s post,
      sections p = (pre ++ s :: post)%list ->
      sec_name s = name ->
      (forall s0, In s0 pre -> sec_name s0 <> name) ->
      section_limits p name
      = Ret (sec_addr s, wrap64 (sec_addr s + sec_size s)) /\
      (in_u64 (sec_addr s + sec_size s) ->
       section_limits p name = Ret (sec_addr s, sec_addr s + sec_size s))) /\
  ((forall s, In s (sections p) -> sec_name s <> name) ->
   section_limits p name = AssertFail "not found section") /\
  (forall pre s post,
      symbols p = (pre ++ s :: post)%list ->
      sym_name s = name ->
      (forall s0, In s0 pre -> sym_name s0 <> name) ->
      symbol_limits p name
      = Ret (sym_value s, wrap64 (sym_value s + sym_size s)) /\
      (in_u64 (sym_value s + sym_size s) ->
       symbol_limits p name = Ret (sym_value s, sym_value s + sym_size s))) /\
  ((forall s, In s (symbols p) -> sym_name s <> name) ->
   symbol_limits p name = AssertFail "not found symbol").
Proof.
  unfold section_limits, symbol_limits. repeat apply conj.
  - intros pre s post -> Hs Hpre.
    rewrite (section_limits_in_found pre post s name Hs Hpre).
    split; [reflexivity | ]. intros R. now rewrite wrap64_small.
  - apply section_limits_in_missing.
  - intros pre s post -> Hs Hpre.
    rewrite (symbol_limits_in_found pre post s name Hs Hpre).
    split; [reflexivity | ]. intros R. now rewrite wrap64_small.
  - apply symbol_limits_in_missing.
Qed.

(** C5 on [pie_image]: [.text] and [helper] are found, [.bss] and [start]
    are not. *)
Lemma C5_limits_found_or_assert_failure_witness :
  section_limits pie_image ".text" = Ret (0x1000, 0x2000) /\
  symbol_limits pie_image "helper" = Ret (0x1040, 0x1060) /\
  section_limits pie_image ".bss" = AssertFail "not found section" /\
  symbol_limits pie_image "start" = AssertFail "not found symbol".
Proof.
  destruct (C5_limits_found_or_assert_failure pie_image ".text")
    as (Hsec & _).
  destruct (C5_limits_found_or_assert_failure pie_image "helper")
    as (_ & _ & Hsym & _).
  destruct (C5_limits_found_or_assert_failure pie_image ".bss")
    as (_ & Hnosec & _).
  destruct (C5_limits_found_or_assert_failure pie_image "start")
    as (_ & _ & _ & Hnosym).
  repeat apply conj.
  - destruct (Hsec [] (text_section 0x1000 0x1000) [] eq_refl eq_refl)
      as [H _]; [intros s0 [] | exact H].
  - destruct (Hsym [func_symbol "main" 0x1000 0x40]
                (func_symbol "helper" 0x1040 0x20) [] eq_refl eq_refl)
      as [H _]; [ | exact H].
    intros s0 [<- | []]. discriminate.
  - apply Hnosec. intros s [<- | []]. discriminate.
  - apply Hnosym. intros s [<- | [<- | []]]; discriminate.
Defined.

Lemma symbol_covers_iff (addr : Z) (s : symbol_t) :
  symbol_covers addr s = true <-> in_symbol_interval addr s.
Proof.
  unfold symbol_covers, in_symbol_interval.
  rewrite andb_true_iff, Z.leb_le, Z.ltb_lt. reflexivity.
Qed.

Lemma addr_to_symbol_in_some (l : list symbol_t) (addr : Z) (s : symbol_t) :
  addr_to_symbol_in l addr = Some s <->
  exists pre post,
    l = (pre ++ s :: post)%list /\ in_symbol_interval addr s /\
    forall s0, In s0 pre -> ~ in_symbol_interval addr s0.
Proof.
  induction l as [ | s1 l IH]; cbn.
  - split; [discriminate | ].
    intros (pre & post & H & _). now destruct pre.
  - destruct (symbol_covers addr s1) eqn:Hc.
    + apply symbol_covers_iff in Hc. split.
      * intros [= <-]. exists [], l.
        split; [reflexivity | split; [assumption | intros s0 []]].
      * intros (pre & post & Hl & Hs & Hpre). destruct pre as [ | s0 pre].
        -- now injection Hl as ->.
        -- injection Hl as <- _. exfalso.
           apply (Hpre s1); [now left | assumption].
    + assert (Hn : ~ in_symbol_interval addr s1).
      { rewrite <- symbol_covers_iff, Hc. discriminate. }
      rewrite IH. split.
      * intros (pre & post & -> & Hs & Hpre). exists (s1 :: pre), post.
        split; [reflexivity | split; [assumption | ]].
        intros s0 [<- | H0]; [assumption | now apply Hpre].
      * intros (pre & post & Hl & Hs & Hpre). destruct pre as [ | s0 pre].
        -- injection Hl as <- _. contradiction.
        -- injection Hl as _ ->. exists pre, post.
           split; [reflexivity | split; [assumption | ]].
           intros s2 H2. apply Hpre. now right.
Qed.

Lemma addr_to_symbol_in_none (l : list symbol_t) (addr : Z) :
  addr_to_symbol_in l addr = None <->
  forall s, In s l -> ~ in_symbol_interval addr s.
Proof.
  induction l as [ | s1 l IH]; cbn.
  - split; [intros _ s [] | reflexivity].
  - destruct (symbol_covers addr s1) eqn:Hc.
    + apply symbol_covers_iff in Hc. split; [discriminate | ].
      intros H. exfalso. apply (H s1); [now left | assumption].
    + assert (Hn : ~ in_symbol_interval addr s1).
      { rewrite <- symbol_covers_iff, Hc. discriminate. }
      rewrite IH. split.
      * intros H s [<- | Hs]; [assumption | now apply H].
      * intros H s Hs. apply H. now right.
Qed.

(** C6.  [addr_to_symbol] finds a symbol exactly when the interval from
    [value] to [value + size] (end excluded, 64-bit sum) of some symbol
    contains the address, and it then returns the first such symbol.  The
    interval is the plain one, up to [value + size], when the sum fits in 64
    bits.  A symbol at [0x1000] of size [0x40] covers [0x1020] and covers
    neither [0x1040] nor [0x0FFF]; a symbol of size 0 covers nothing. *)
Theorem C6_addr_to_symbol_iff_interval (p : ElfParser) (addr : Z) :
  ((exists s, addr_to_symbol p addr = Some s) <->
   (exists s, In s (symbols p) /\ in_symbol_interval addr s)) /\
  (forall s, addr_to_symbol p addr = Some s <->
             exists pre post,
               symbols p = (pre ++ s :: post)%list /\
               in_symbol_interval addr s /\
               forall s0, In s0 pre -> ~ in_symbol_interval addr s0) /\
  (forall s, in_u64 (sym_value s + sym_size s) ->
             (in_symbol_interval addr s <->
              sym_value s <= addr < sym_value s + sym_size s)) /\
  (forall s, sym_value s = 0x1000 -> sym_size s = 0x40 ->
             in_symbol_interval 0x1020 s /\
             ~ in_symbol_interval 0x1040 s /\
             ~ in_symbol_interval 0x0FFF s /\
             (symbols p = [s] ->
              addr_to_symbol p 0x1020 = Some s /\
              addr_to_symbol p 0x1040 = None /\
              addr_to_symbol p 0x0FFF = None)) /\
  (forall s, in_u64 (sym_value s) -> sym_size s = 0 ->
             ~ in_symbol_interval addr s).
Proof.
  unfold addr_to_symbol. split; [ | split; [ | split; [ | split]]].
  - split.
    + intros (s & Hs). apply addr_to_symbol_in_some in Hs.
      destruct Hs as (pre & post & Hl & Hin & _). exists s.
      split; [ | assumption]. rewrite Hl. apply in_elt.
    + intros (s & Hin & Hs).
      destruct (addr_to_symbol_in (symbols p) addr) as [s1 | ] eqn:E.
      * now exists s1.
      * exfalso. rewrite addr_to_symbol_in_none in E. now apply (E s).
  - intros s0. apply addr_to_symbol_in_some.
  - intros s0 R. unfold in_symbol_interval.
    rewrite wrap64_small by exact R. reflexivity.
  - intros s0 Hv Hz.
    assert (H1 : in_symbol_interval 0x1020 s0)
      by (unfold in_symbol_interval; rewrite Hv, Hz; vm_compute;
          split; [discriminate | reflexivity]).
    assert (H2 : ~ in_symbol_interval 0x1040 s0)
      by (unfold in_symbol_interval; rewrite Hv, Hz;
          change (wrap64 (0x1000 + 0x40)) with 0x1040; lia).
    assert (H3 : ~ in_symbol_interval 0x0FFF s0)
      by (unfold in_symbol_interval; rewrite Hv, Hz; lia).
    split; [exact H1 | split; [exact H2 | split; [exact H3 | ]]].
    intros H. rewrite H. split; [ | split].
    + cbn. now rewrite (proj2 (symbol_covers_iff _ _) H1).
    + apply addr_to_symbol_in_none. intros s1 [<- | []]. assumption.
    + apply addr_to_symbol_in_none. intros s1 [<- | []]. assumption.
  - intros s0 R Hz. unfold in_symbol_interval.
    rewrite Hz, Z.add_0_r, wrap64_small by exact R. lia.
Qed.

(** C6 on [pie_image]: [0x1050] is in [helper], [0x1060] in no symbol. *)
Lemma C6_addr_to_symbol_iff_interval_witness :
  addr_to_symbol pie_image 0x1050 = Some (func_symbol "helper" 0x1040 0x20) /\
  addr_to_symbol pie_image 0x1060 = None /\
  in_symbol_interval 0x1020 (func_symbol "main" 0x1000 0x40) /\
  ~ in_symbol_interval 0x1040 (func_symbol "main" 0x1000 0x40) /\
  ~ in_symbol_interval 0x1050 (func_symbol "empty" 0x1050 0).
Proof.
  destruct (C6_addr_to_symbol_iff_interval pie_image 0x1050)
    as (_ & Hfirst & _ & Hmain & Hempty).
  destruct (Hmain (func_symbol "main" 0x1000 0x40) eq_refl eq_refl)
    as (Hin & Hout & _).
  split; [ | split; [ | split; [ | split]]].
  - apply Hfirst. exists [func_symbol "main" 0x1000 0x40], [].
    split; [reflexivity | split].
    + vm_compute. split; [discriminate | reflexivity].
    + intros s0 [<- | []]. vm_compute. intros [_ H]. discriminate H.
  - reflexivity.
  - exact Hin.
  - exact Hout.
  - apply Hempty; [ | reflexivity]. unfold in_u64. simpl. lia.
Defined.

(** ** Stack walking *)

Lemma text_contains_limits (elf : ElfParser) (lo hi addr : Z) :
  section_limits elf ".text" = Ret (lo, hi) ->
  (text_contains elf addr <-> lo <= addr < hi).
Proof.
  intros H. split.
  - intros (lo' & hi' & H' & Hin). rewrite H in H'. now injection H' as <- <-.
  - intros Hin. now exists lo, hi.
Qed.

Lemma owner_excludes_no_owner (elfs : list ElfParser) (addr : Z)
      (elf : ElfParser) :
  first_text_owner elfs addr elf -> no_text_owner elfs addr -> False.
Proof.
  intros (pre & post & -> & Hin & _) Hnone.
  apply (Hnone elf); [apply in_elt | assumption].
Qed.

(** With a [.text] section in every image the lookup returns, and finds
    the first owner if there is one. *)
Lemma elf_with_addr_in_text_spec (elfs : list ElfParser) (addr : Z) :
  (forall e, In e elfs -> has_text e) ->
  (exists elf, elf_with_addr_in_text elfs addr = Ret (Some elf) /\
               first_text_owner elfs addr elf) \/
  (elf_with_addr_in_text elfs addr = Ret None /\ no_text_owner elfs addr).
Proof.
  induction elfs as [ | e elfs IH]; intros Hall.
  - right. split; [reflexivity | intros e []].
  - destruct (Hall e (or_introl eq_refl)) as ([lo hi] & Hlim).
    cbn [elf_with_addr_in_text]. rewrite Hlim. cbn [bind fst snd].
    destruct ((lo <=? addr) && (addr <? hi)) eqn:Hc.
    + left. exists e. split; [reflexivity | ].
      exists [], elfs. split; [reflexivity | split; [ | intros e0 []]].
      apply (text_contains_limits e lo hi addr Hlim).
      apply andb_true_iff in Hc. rewrite Z.leb_le, Z.ltb_lt in Hc. exact Hc.
    + assert (Hn : ~ text_contains e addr).
      { rewrite (text_contains_limits e lo hi addr Hlim).
        intros [H1 H2]. apply Z.leb_le in H1. apply Z.ltb_lt in H2.
        rewrite H1, H2 in Hc. discriminate. }
      destruct IH as [(elf & Hret & pre & post & -> & Hin & Hpre) | [Hret Hno]].
      * intros e0 H0. apply Hall. now right.
      * left. exists elf. split; [exact Hret | ].
        exists (e :: pre), post.
        split; [reflexivity | split; [assumption | ]].
        intros e0 [<- | H0]; [assumption | now apply Hpre].
      * right. split; [exact Hret | ].
        intros e0 [<- | H0]; [assumption | now apply Hno].
Qed.

(** An image without [.text] in front of the owner makes the lookup fail. *)
Lemma elf_with_addr_in_text_no_text (e : ElfParser) (elfs : list ElfParser)
      (addr : Z) (msg : string) :
  section_limits e ".text" = AssertFail msg ->
  elf_with_addr_in_text (e :: elfs) addr = AssertFail msg.
Proof. intros H. cbn [elf_with_addr_in_text]. now rewrite H. Qed.

Section Walks.

Variable num_frames : Z.
Hypothesis num_frames_u64 : in_u64 num_frames.

Lemma counter_next (i : Z) : loop_counter_ok num_frames i -> wrap64 (i + 1) = i + 1.
Proof.
  intros Hi. apply wrap64_small. unfold loop_counter_ok, in_u64 in *. lia.
Qed.

Lemma fuel_next (fuel : nat) (i : Z) :
  loop_fuel_ok num_frames (S fuel) i -> i + 1 < num_frames -> loop_fuel_ok num_frames fuel (i + 1).
Proof. unfold loop_fuel_ok. intros [_ H] Hlt. split; lia. Qed.

Lemma enough_fuel_ok : loop_fuel_ok num_frames (enough_fuel num_frames) 0.
Proof.
  unfold loop_fuel_ok, enough_fuel, in_u64 in *. split; [discriminate | lia].
Qed.

(** The single-image loop ends; the trace it returns extends the trace it
    was given by the current return address first, and by nothing else
    when the cap does not allow a second iteration. *)
Lemma stacktrace_loop_total (p : ElfParser) (limits : Z * Z) :
  forall fuel i regs mmu st,
    loop_counter_ok num_frames i -> loop_fuel_ok num_frames fuel i ->
    exists rest,
      stacktrace_loop p limits num_frames fuel i regs mmu st
      = Some (st ++ regs DwarfReg.ReturnAddress :: rest) /\
      (num_frames <= i + 1 -> rest = []).
Proof.
  induction fuel as [ | fuel IH]; intros i regs mmu st Hi Hf.
  - now destruct Hf.
  - cbn [stacktrace_loop]. rewrite (counter_next i Hi).
    destruct (i + 1 <? num_frames) eqn:Hlt.
    + apply Z.ltb_lt in Hlt.
      destruct (next_frame (m_debug p) (rebase p regs) mmu)
        as [[more regs'] mmu'].
      destruct (more && (fst limits <=? regs' DwarfReg.ReturnAddress)
                && (regs' DwarfReg.ReturnAddress <? snd limits)).
      * destruct (IH (i + 1) regs' mmu'
                     (st ++ [regs DwarfReg.ReturnAddress]))
          as (rest & Hrest & _).
        -- right. unfold loop_counter_ok in Hi. lia.
        -- now apply fuel_next.
        -- exists (regs' DwarfReg.ReturnAddress :: rest).
           rewrite Hrest, <- app_assoc. split; [reflexivity | lia].
      * exists []. split; [reflexivity | lia].
    + exists []. split; reflexivity.
Qed.

Variable elfs : list ElfParser.
Hypothesis elfs_have_text : forall e, In e elfs -> has_text e.

(** The multi-image loop ends without an [ASSERT] failure, and what it
    appends to the trace is a walk in the sense of [multi_walk]. *)
Lemma stacktrace_loop_elfs_walk :
  forall fuel i regs mmu st,
    loop_counter_ok num_frames i -> loop_fuel_ok num_frames fuel i ->
    exists trace,
      stacktrace_loop_elfs elfs num_frames fuel i regs mmu st
      = Some (Ret (st ++ trace)) /\
      multi_walk elfs num_frames i regs mmu trace.
Proof.
  induction fuel as [ | fuel IH]; intros i regs mmu st Hi Hf.
  - now destruct Hf.
  - cbn [stacktrace_loop_elfs].
    destruct (elf_with_addr_in_text_spec elfs (regs DwarfReg.ReturnAddress)
                elfs_have_text) as [(elf & Hret & Hown) | [Hret Hno]];
      rewrite Hret.
    + rewrite (counter_next i Hi).
      destruct (i + 1 <? num_frames) eqn:Hlt.
      * apply Z.ltb_lt in Hlt.
        destruct (next_frame (m_debug elf) (rebase elf regs) mmu)
          as [[more regs'] mmu'] eqn:Hnext.
        destruct more.
        -- destruct (IH (i + 1) regs' mmu'
                       (st ++ [(regs DwarfReg.ReturnAddress, elf)]))
             as (trace & Htrace & Hwalk).
           ++ right. unfold loop_counter_ok in Hi. lia.
           ++ now apply fuel_next.
           ++ exists ((regs DwarfReg.ReturnAddress, elf) :: trace).
              rewrite Htrace, <- app_assoc. split; [reflexivity | ].
              now apply walk_step with regs' mmu'.
        -- exists [(regs DwarfReg.ReturnAddress, elf)].
           split; [reflexivity | ].
           now apply walk_last_frame with regs' mmu'.
      * apply Z.ltb_ge in Hlt.
        exists [(regs DwarfReg.ReturnAddress, elf)].
        split; [reflexivity | ]. apply walk_cap; [assumption | lia].
    + exists []. rewrite app_nil_r. split; [reflexivity | ].
      now apply walk_no_owner.
Qed.

Lemma multi_walk_tags n regs mmu trace :
  multi_walk elfs num_frames n regs mmu trace ->
  forall addr elf, In (addr, elf) trace -> first_text_owner elfs addr elf.
Proof.
  induction 1 as [ | n regs mmu elf Hown _ | n regs mmu elf regs' mmu' Hown _ _
                   | n regs mmu elf regs' mmu' trace Hown _ _ _ IH];
    intros addr e Hin.
  - destruct Hin.
  - destruct Hin as [[= <- <-] | []]. exact Hown.
  - destruct Hin as [[= <- <-] | []]. exact Hown.
  - destruct Hin as [[= <- <-] | Hin]; [exact Hown | now apply IH].
Qed.

Lemma multi_walk_length n regs mmu trace :
  multi_walk elfs num_frames n regs mmu trace ->
  Z.of_nat (List.length trace) <= Z.max 1 (num_frames - n).
Proof.
  induction 1; cbn [List.length]; lia.
Qed.

Lemma multi_walk_no_owner n regs mmu trace :
  multi_walk elfs num_frames n regs mmu trace ->
  no_text_owner elfs (regs DwarfReg.ReturnAddress) -> trace = [].
Proof.
  destruct 1 as [ | ? ? ? ? Hown | ? ? ? ? ? ? Hown | ? ? ? ? ? ? ? Hown];
    intros Hno; [reflexivity | | | ];
    destruct (owner_excludes_no_owner _ _ _ Hown Hno).
Qed.

End Walks.

Lemma sample_images_have_text :
  forall e, In e [image_A; image_B] -> has_text e.
Proof. intros e [<- | [<- | []]]; eexists; reflexivity. Qed.

Lemma no_text_owner_without_text (elfs : list ElfParser) (addr : Z) :
  (forall e, In e elfs -> ~ has_text e) -> no_text_owner elfs addr.
Proof.
  intros H e He (lo & hi & Hlim & _). apply (H e He). now exists (lo, hi).
Qed.

(** C9 as stated fails when an image has no section named [.text].
    [parsed_sample] is what [init] builds from a file without section
    headers.  With the images [parsed_sample; image_A] and a return address
    of 0, which is in no [.text] range, the lookup fails the [ASSERT] of
    [section_limits] and the walk returns no trace.  Besides, the frame
    cap is tested after a pair is recorded: with a cap of 0 a pair is
    recorded all the same. *)
Lemma C9_image_without_text_fails_assert :
  init "a.out" (file_sample ET_EXEC) = Ret parsed_sample /\
  no_text_owner [parsed_sample; image_A] (rip kregs0) /\
  get_stacktrace_elfs [parsed_sample; image_A] kregs0 8 mmu_unmapped
  = Some (AssertFail "not found section") /\
  ~ (exists trace,
        get_stacktrace_elfs [parsed_sample; image_A] kregs0 8 mmu_unmapped
        = Some (Ret trace)) /\
  get_stacktrace_elfs [image_A] kregs_at_1010 0 mmu_unmapped
  = Some (Ret [(0x1010, image_A)]).
Proof.
  split; [reflexivity | split; [ | split; [ | split]]].
  - intros e [<- | [<- | []]] (lo & hi & Hlim & Hin).
    + discriminate Hlim.
    + vm_compute in Hlim. injection Hlim as <- <-.
      unfold kregs0 in Hin. cbn [rip] in Hin. lia.
  - reflexivity.
  - intros (trace & H). discriminate H.
  - reflexivity.
Qed.

(** C9, amended.  When every image has a section named [.text], the
    multi-image walk returns a trace and never fails an [ASSERT].  The trace
    is the walk of [multi_walk]: each recorded pair holds the first image,
    in the given order, whose [.text] range contains the address; the walk
    stops, with what it has recorded, at the first return address that no
    image owns, or once the number of recorded pairs reaches the cap (tested
    after recording, so at most [max 1 num_frames] pairs), or when
    [next_frame] of the owner finds no further frame. *)
Theorem C9_multi_image_walk (elfs : list ElfParser) (kregs : kvm_regs)
        (num_frames : Z) (mmu : Mmu) :
  (forall e, In e elfs -> has_text e) ->
  in_u64 num_frames ->
  exists trace,
    get_stacktrace_elfs elfs kregs num_frames mmu = Some (Ret trace) /\
    multi_walk elfs num_frames 0 (kvm_to_dwarf_regs kregs regs_uninit) mmu
               trace /\
    (forall addr elf,
        In (addr, elf) trace -> first_text_owner elfs addr elf) /\
    Z.of_nat (List.length trace) <= Z.max 1 num_frames /\
    (no_text_owner elfs (rip kregs) -> trace = []).
Proof.
  intros Hall Hcap. unfold get_stacktrace_elfs.
  destruct (stacktrace_loop_elfs_walk num_frames Hcap elfs Hall
              (enough_fuel num_frames) 0
              (kvm_to_dwarf_regs kregs regs_uninit) mmu [])
    as (trace & Hret & Hwalk).
  - now left.
  - now apply enough_fuel_ok.
  - exists trace. split; [exact Hret | split; [exact Hwalk | ]].
    split; [ | split].
    + exact (multi_walk_tags num_frames elfs _ _ _ _ Hwalk).
    + pose proof (multi_walk_length num_frames elfs _ _ _ _ Hwalk). lia.
    + exact (multi_walk_no_owner num_frames elfs _ _ _ _ Hwalk).
Qed.

(** C9 on a call chain that crosses from [image_A] into [image_B] and then
    returns to address 0, which neither image owns. *)
Lemma C9_multi_image_walk_witness :
  get_stacktrace_elfs [image_A; image_B] kregs_at_1010 8 mmu_unmapped
  = Some (Ret [(0x1010, image_A); (0x7010, image_B)]) /\
  first_text_owner [image_A; image_B] 0x1010 image_A /\
  first_text_owner [image_A; image_B] 0x7010 image_B.
Proof.
  assert (Hcap : in_u64 8) by (unfold in_u64; lia).
  destruct (C9_multi_image_walk [image_A; image_B] kregs_at_1010 8
              mmu_unmapped sample_images_have_text Hcap)
    as (trace & Hret & _ & Htags & _).
  assert (Hval : get_stacktrace_elfs [image_A; image_B] kregs_at_1010 8
                                     mmu_unmapped
                 = Some (Ret [(0x1010, image_A); (0x7010, image_B)]))
    by reflexivity.
  rewrite Hval in Hret. injection Hret as <-.
  split; [exact Hval | split; apply Htags].
  - now left.
  - right. now left.
Defined.

(** C10 as stated fails when the image has no section named [.text], as
    [parsed_sample], built by [init] from a file without section headers:
    [get_stacktrace] then fails the [ASSERT] of [section_limits] before it
    records anything, and the multi-image walk fails it too instead of
    returning an empty trace. *)
Lemma C10_image_without_text_records_nothing :
  init "a.out" (file_sample ET_EXEC) = Ret parsed_sample /\
  get_stacktrace parsed_sample kregs0 0 mmu_unmapped
  = Some (AssertFail "not found section") /\
  ~ (exists trace,
        get_stacktrace parsed_sample kregs0 0 mmu_unmapped
        = Some (Ret trace)) /\
  no_text_owner [parsed_sample] (rip kregs0) /\
  get_stacktrace_elfs [parsed_sample] kregs0 0 mmu_unmapped
  = Some (AssertFail "not found section") /\
  get_stacktrace_elfs [parsed_sample] kregs0 0 mmu_unmapped
  <> Some (Ret []).
Proof.
  split; [reflexivity | split; [reflexivity | split; [ | split; [ | split]]]].
  - intros (trace & H). discriminate H.
  - apply no_text_owner_without_text.
    intros e [<- | []] (range & H). discriminate H.
  - reflexivity.
  - discriminate.
Qed.

(** C10, amended.  For an image that has a section named [.text], the
    single-image walk returns a trace whose first entry is the initial
    return address [rip], whatever the registers, the memory reader and the
    cap, and wherever [rip] lies; with a cap of 0 or 1 that is the whole
    trace, so with a cap of 0 the trace is longer than the cap.  The
    multi-image walk over images that all have a [.text] section returns
    the empty trace when no [.text] range contains [rip]. *)
Theorem C10_first_entry_always_recorded (p : ElfParser)
        (elfs : list ElfParser) (kregs : kvm_regs) (num_frames : Z)
        (mmu : Mmu) :
  in_u64 num_frames ->
  (has_text p ->
   exists rest,
     get_stacktrace p kregs num_frames mmu = Some (Ret (rip kregs :: rest)) /\
     (num_frames <= 1 -> rest = []) /\
     (num_frames = 0 ->
      num_frames < Z.of_nat (List.length (rip kregs :: rest)))) /\
  ((forall e, In e elfs -> has_text e) ->
   no_text_owner elfs (rip kregs) ->
   get_stacktrace_elfs elfs kregs num_frames mmu = Some (Ret [])).
Proof.
  intros Hcap. split.
  - intros (limits & Hlim). unfold get_stacktrace. rewrite Hlim.
    destruct (stacktrace_loop_total num_frames Hcap p limits
                (enough_fuel num_frames) 0
                (kvm_to_dwarf_regs kregs regs_uninit) mmu [])
      as (rest & Hret & Hone).
    + now left.
    + now apply enough_fuel_ok.
    + exists rest. rewrite Hret. cbn [option_map app].
      rewrite kvm_to_dwarf_regs_ReturnAddress.
      split; [reflexivity | split].
      * intros H. apply Hone. lia.
      * intros ->. cbn [List.length]. lia.
  - intros Hall Hno. unfold get_stacktrace_elfs.
    destruct (stacktrace_loop_elfs_walk num_frames Hcap elfs Hall
                (enough_fuel num_frames) 0
                (kvm_to_dwarf_regs kregs regs_uninit) mmu [])
      as (trace & Hret & Hwalk).
    + now left.
    + now apply enough_fuel_ok.
    + rewrite Hret.
      now rewrite (multi_walk_no_owner num_frames elfs _ _ _ _ Hwalk Hno).
Qed.

(** C10 on [image_A] with a cap of 0 and [rip = 0], outside its [.text],
    and on the images [image_A; image_B], neither of which owns 0. *)
Lemma C10_first_entry_always_recorded_witness :
  get_stacktrace image_A kregs0 0 mmu_unmapped = Some (Ret [0]) /\
  get_stacktrace_elfs [image_A; image_B] kregs0 0 mmu_unmapped
  = Some (Ret []).
Proof.
  assert (Hcap : in_u64 0) by (unfold in_u64; lia).
  destruct (C10_first_entry_always_recorded image_A [image_A; image_B]
              kregs0 0 mmu_unmapped Hcap) as (Hone & Hmulti).
  split.
  - destruct Hone as (rest & Hret & Hnil & _).
    + eexists; reflexivity.
    + rewrite (Hnil ltac:(lia)) in Hret. exact Hret.
  - apply Hmulti; [exact sample_images_have_text | ].
    intros e [<- | [<- | []]] (lo & hi & Hlim & Hin);
      vm_compute in Hlim; injection Hlim as <- <-;
      unfold kregs0 in Hin; cbn [rip] in Hin; lia.
Defined.

(** * Further properties *)

(** ** Page-table macros and entries *)

Lemma land_u64 (a x : Z) : in_u64 a -> in_u64 (Z.land a x).
Proof.
  intros Ha. unfold in_u64 in *.
  assert (H : Z.land a x = Z.land a x mod 2 ^ 64).
  { rewrite <- Z.land_ones by lia.
    rewrite <- Z.land_assoc, (Z.land_comm x), Z.land_assoc.
    rewrite (Z.land_ones a) by lia. now rewrite Z.mod_small. }
  rewrite H. apply Z.mod_pos_bound. lia.
Qed.

Lemma lor_u64 (a b : Z) : in_u64 a -> in_u64 b -> in_u64 (Z.lor a b).
Proof.
  intros Ha Hb. unfold in_u64 in *.
  assert (H : Z.lor a b = Z.lor a b mod 2 ^ 64).
  { rewrite <- Z.land_ones by lia. rewrite Z.land_lor_distr_l.
    rewrite !Z.land_ones by lia. now rewrite !Z.mod_small. }
  rewrite H. apply Z.mod_pos_bound. lia.
Qed.

(** On a 64-bit operand the 64-bit complement masks like the unbounded
    one. *)
Lemma land_not64 (a m : Z) :
  in_u64 a -> Z.land a (not64 m) = Z.land a (Z.lnot m).
Proof.
  intros Ha. unfold not64, wrap64, in_u64 in *.
  rewrite <- Z.land_ones by lia.
  rewrite (Z.land_comm (Z.lnot m)), Z.land_assoc.
  rewrite (Z.land_ones a) by lia. now rewrite Z.mod_small.
Qed.

Lemma land_not64_ones (a n : Z) :
  in_u64 a -> 0 <= n -> Z.land a (not64 (Z.ones n)) = a - a mod 2 ^ n.
Proof.
  intros Ha Hn. rewrite land_not64 by assumption.
  rewrite <- Z.ldiff_land, Z.ldiff_ones_r by assumption.
  rewrite Z.shiftl_mul_pow2, Z.shiftr_div_pow2 by assumption.
  pose proof (Z.div_mod a (2 ^ n)) as H.
  assert (2 ^ n <> 0) by (apply Z.pow_nonzero; lia). lia.
Qed.

Module PageTableMore.
Import PageTable.

Lemma slice_of_sum (k q i r : Z) :
  0 <= k -> 0 <= i < 512 -> 0 <= r < 2 ^ k ->
  (((q * 512 + i) * 2 ^ k + r) / 2 ^ k) mod 2 ^ 9 = i.
Proof.
  intros Hk Hi Hr.
  assert (Hd : ((q * 512 + i) * 2 ^ k + r) / 2 ^ k = q * 512 + i).
  { symmetry. apply Z.div_unique with r; [left; exact Hr | lia]. }
  rewrite Hd. change (2 ^ 9) with 512.
  symmetry. apply Z.mod_unique with q; [left; exact Hi | lia].
Qed.

(** Composing an address from four table indexes and a page offset (and
    any bits above bit 47) and taking it apart again gives the indexes and
    the offset back. *)
Theorem X_index_of_composed_address (h i4 i3 i2 i1 off : Z) :
  0 <= i4 < 512 -> 0 <= i3 < 512 -> 0 <= i2 < 512 -> 0 <= i1 < 512 ->
  0 <= off < 4096 ->
  let addr :=
    h * 2 ^ 48
    + (((i4 * 512 + i3) * 512 + i2) * 512 + i1) * 4096 + off in
  PTL4_INDEX addr = i4 /\ PTL3_INDEX addr = i3 /\
  PTL2_INDEX addr = i2 /\ PTL1_INDEX addr = i1 /\
  PAGE_OFFSET addr = off.
Proof.
  intros H4 H3 H2 H1 H0 addr.
  rewrite PageTableFacts.PTL4_INDEX_eq, PageTableFacts.PTL3_INDEX_eq,
    PageTableFacts.PTL2_INDEX_eq, PageTableFacts.PTL1_INDEX_eq,
    PageTableFacts.PAGE_OFFSET_eq.
  repeat apply conj.
  - replace addr
      with ((h * 512 + i4) * 2 ^ 39
            + (((i3 * 512 + i2) * 512 + i1) * 4096 + off))
      by (unfold addr; change (2 ^ 48) with 281474976710656;
          change (2 ^ 39) with 549755813888; lia).
    apply slice_of_sum; [lia | assumption | ].
    change (2 ^ 39) with 549755813888. lia.
  - replace addr
      with (((h * 512 + i4) * 512 + i3) * 2 ^ 30
            + ((i2 * 512 + i1) * 4096 + off))
      by (unfold addr; change (2 ^ 48) with 281474976710656;
          change (2 ^ 30) with 1073741824; lia).
    apply slice_of_sum; [lia | assumption | ].
    change (2 ^ 30) with 1073741824. lia.
  - replace addr
      with ((((h * 512 + i4) * 512 + i3) * 512 + i2) * 2 ^ 21
            + (i1 * 4096 + off))
      by (unfold addr; change (2 ^ 48) with 281474976710656;
          change (2 ^ 21) with 2097152; lia).
    apply slice_of_sum; [lia | assumption | ].
    change (2 ^ 21) with 2097152. lia.
  - replace addr
      with (((((h * 512 + i4) * 512 + i3) * 512 + i2) * 512 + i1) * 2 ^ 12
            + off)
      by (unfold addr; change (2 ^ 48) with 281474976710656;
          change (2 ^ 12) with 4096; lia).
    apply slice_of_sum; [lia | assumption | ].
    change (2 ^ 12) with 4096. lia.
  - change (2 ^ 12) with 4096.
    symmetry.
    apply Z.mod_unique
      with (h * 68719476736
            + (((i4 * 512 + i3) * 512 + i2) * 512 + i1));
      [left; exact H0 | ].
    unfold addr. change (2 ^ 48) with 281474976710656. lia.
Qed.

Lemma X_index_of_composed_address_witness :
  let addr := 0x00007f1234567abc in
  PTL4_INDEX addr = 254 /\ PTL3_INDEX addr = 72 /\
  PTL2_INDEX addr = 418 /\ PTL1_INDEX addr = 359 /\
  PAGE_OFFSET addr = 0xabc.
Proof.
  apply (X_index_of_composed_address 0 254 72 418 359 0xabc); lia.
Defined.

(** Each [PTLn_MASK] rounds a 64-bit address down to a multiple of
    [PTLn_SIZE]; the page base and the page offset add up to the address;
    an address is page-aligned exactly when its page offset is 0. *)
Theorem X_masks_round_down (addr : Z) :
  in_u64 addr ->
  Z.land addr PTL4_MASK = addr - addr mod PTL4_SIZE /\
  Z.land addr PTL3_MASK = addr - addr mod PTL3_SIZE /\
  Z.land addr PTL2_MASK = addr - addr mod PTL2_SIZE /\
  Z.land addr PTL1_MASK = addr - addr mod PTL1_SIZE /\
  Z.land addr PTL1_MASK + PAGE_OFFSET addr = addr /\
  (IS_PAGE_ALIGNED addr = true <-> PAGE_OFFSET addr = 0) /\
  IS_PAGE_ALIGNED (Z.land addr PTL1_MASK) = true.
Proof.
  intros Ha.
  assert (H4 : Z.land addr PTL4_MASK = addr - addr mod PTL4_SIZE)
    by (apply (land_not64_ones addr 39 Ha); lia).
  assert (H3 : Z.land addr PTL3_MASK = addr - addr mod PTL3_SIZE)
    by (apply (land_not64_ones addr 30 Ha); lia).
  assert (H2 : Z.land addr PTL2_MASK = addr - addr mod PTL2_SIZE)
    by (apply (land_not64_ones addr 21 Ha); lia).
  assert (H1 : Z.land addr PTL1_MASK = addr - addr mod PTL1_SIZE)
    by (apply (land_not64_ones addr 12 Ha); lia).
  repeat (split; [assumption | ]).
  rewrite PageTableFacts.PAGE_OFFSET_eq. unfold IS_PAGE_ALIGNED.
  rewrite H1. change PTL1_SIZE with (2 ^ 12).
  split; [lia | split].
  - rewrite Z.eqb_eq. lia.
  - assert (Hb : in_u64 (addr - addr mod 2 ^ 12)).
    { unfold in_u64 in *.
      pose proof (Z.mod_pos_bound addr (2 ^ 12) ltac:(lia)).
      pose proof (Z.mod_le addr (2 ^ 12) ltac:(lia) ltac:(lia)). lia. }
    change (Z.land (addr - addr mod 2 ^ 12) PTL1_MASK)
      with (Z.land (addr - addr mod 2 ^ 12) (not64 (Z.ones 12))).
    rewrite (land_not64_ones _ 12 Hb) by lia.
    apply Z.eqb_eq.
    assert (Hm : (addr - addr mod 2 ^ 12) mod 2 ^ 12 = 0).
    { rewrite Zminus_mod, Z.mod_mod, Z.sub_diag by lia. reflexivity. }
    lia.
Qed.

Lemma X_masks_round_down_witness :
  Z.land 0x7f1234567abc PTL1_MASK = 0x7f1234567000 /\
  Z.land 0x7f1234567abc PTL2_MASK = 0x7f1234400000 /\
  IS_PAGE_ALIGNED 0x7f1234567abc = false.
Proof.
  assert (Ha : in_u64 0x7f1234567abc) by (unfold in_u64; lia).
  destruct (X_masks_round_down 0x7f1234567abc Ha)
    as (_ & _ & H2 & H1 & _).
  split; [rewrite H1; reflexivity | split; [rewrite H2 | ]; reflexivity].
Defined.

(** [PAGE_CEIL] of a 64-bit address: the least page-aligned address not
    below it, as long as that fits in 64 bits; for an address in the last
    page that is not its start, the sum wraps and the result is 0. *)
Theorem X_PAGE_CEIL_kernel (addr : Z) :
  in_u64 addr ->
  (addr <= 2 ^ 64 - PAGE_SIZE ->
   addr <= PAGE_CEIL addr < addr + PAGE_SIZE /\
   PAGE_CEIL addr mod PAGE_SIZE = 0 /\
   IS_PAGE_ALIGNED (PAGE_CEIL addr) = true /\
   (PAGE_CEIL addr = addr <-> IS_PAGE_ALIGNED addr = true) /\
   PAGE_CEIL (PAGE_CEIL addr) = PAGE_CEIL addr) /\
  (2 ^ 64 - PAGE_SIZE < addr -> PAGE_CEIL addr = 0).
Proof.
  intros Ha. unfold in_u64 in Ha.
  assert (Hceil : forall a, 0 <= a -> a <= 2 ^ 64 - 4096 ->
            PAGE_CEIL a = a + 4095 - (a + 4095) mod 4096).
  { intros a H0 H1. unfold PAGE_CEIL. change PAGE_SIZE with 4096.
    rewrite wrap64_small by lia.
    replace (a + 4096 - 1) with (a + 4095) by lia.
    change PTL1_MASK with (not64 (Z.ones 12)).
    rewrite land_not64_ones by (unfold in_u64; lia).
    reflexivity. }
  assert (Hal : forall a, in_u64 a ->
            (IS_PAGE_ALIGNED a = true <-> a mod 4096 = 0)).
  { intros a Hu. unfold IS_PAGE_ALIGNED.
    change PTL1_MASK with (not64 (Z.ones 12)).
    rewrite land_not64_ones by (assumption || lia).
    change (2 ^ 12) with 4096. rewrite Z.eqb_eq. lia. }
  change PAGE_SIZE with 4096. split.
  - intros Hle. rewrite (Hceil addr) by lia.
    pose proof (Z.mod_pos_bound (addr + 4095) 4096 ltac:(lia)) as Hm.
    pose proof (Z.div_mod addr 4096 ltac:(lia)) as Hd.
    pose proof (Z.mod_pos_bound addr 4096 ltac:(lia)) as Hr.
    set (c := addr + 4095 - (addr + 4095) mod 4096) in *.
    assert (Hc0 : c mod 4096 = 0).
    { unfold c. rewrite Zminus_mod, Z.mod_mod, Z.sub_diag by lia.
      reflexivity. }
    assert (Hrange : addr <= c < addr + 4096) by (unfold c; lia).
    assert (Hcu : in_u64 c) by (unfold in_u64; lia).
    split; [exact Hrange | split; [exact Hc0 | split; [ | split]]].
    + apply Hal; assumption.
    + rewrite Hal by (unfold in_u64; lia). split.
      * intros Heq. rewrite <- Heq. exact Hc0.
      * intros Hz. unfold c.
        replace (addr + 4095) with (4095 + addr) by lia.
        rewrite <- Zplus_mod_idemp_r, Hz. simpl (4095 + 0). 
        change (4095 mod 4096) with 4095. lia.
    + pose proof (Z.div_mod c 4096 ltac:(lia)) as Hcd.
      rewrite (Hceil c) by lia.
      rewrite <- Zplus_mod_idemp_l, Hc0. simpl (0 + 4095).
      change (4095 mod 4096) with 4095. lia.
  - intros Hgt. unfold PAGE_CEIL. change PAGE_SIZE with 4096.
    assert (Hw : wrap64 (addr + 4096 - 1) = addr + 4095 - 2 ^ 64).
    { unfold wrap64. symmetry. apply Z.mod_unique with 1; [left | ]; lia. }
    rewrite Hw. change PTL1_MASK with (not64 (Z.ones 12)).
    rewrite land_not64_ones by (unfold in_u64; lia).
    change (2 ^ 12) with 4096.
    rewrite (Z.mod_small (addr + 4095 - 2 ^ 64)) by lia. lia.
Qed.

Lemma X_PAGE_CEIL_kernel_witness :
  PAGE_CEIL 0x2345 = 0x3000 /\
  PAGE_CEIL (PAGE_CEIL 0x2345) = PAGE_CEIL 0x2345 /\
  PAGE_CEIL 0xfffffffffffff001 = 0.
Proof.
  assert (H1 : in_u64 0x2345) by (unfold in_u64; lia).
  assert (H2 : in_u64 0xfffffffffffff001) by (unfold in_u64; lia).
  destruct (X_PAGE_CEIL_kernel 0x2345 H1) as (Hfit & _).
  destruct (X_PAGE_CEIL_kernel 0xfffffffffffff001 H2) as (_ & Hwrap).
  destruct Hfit as (_ & _ & _ & _ & Hidem);
    [change PAGE_SIZE with 4096; lia | ].
  split; [reflexivity | split; [exact Hidem | ]].
  apply Hwrap. change PAGE_SIZE with 4096. lia.
Defined.

End PageTableMore.

Module PageTableEntryMore.
Import PageTable.

Lemma lor_land_same (a b : Z) : Z.land (Z.lor a b) b = b.
Proof.
  apply Z.bits_inj'. intros n Hn.
  rewrite Z.land_spec, Z.lor_spec.
  destruct (Z.testbit a n), (Z.testbit b n); reflexivity.
Qed.

Lemma lor_land_other (a b c : Z) :
  Z.land b c = 0 -> Z.land (Z.lor a b) c = Z.land a c.
Proof.
  intros H. rewrite Z.land_lor_distr_l, H. apply Z.lor_0_r.
Qed.

Lemma land_land_kept (a m c : Z) :
  Z.land m c = c -> Z.land (Z.land a m) c = Z.land a c.
Proof. intros H. now rewrite <- Z.land_assoc, H. Qed.

Lemma land_land_cleared (a m c : Z) :
  Z.land m c = 0 -> Z.land (Z.land a m) c = 0.
Proof. intros H. rewrite <- Z.land_assoc, H. apply Z.land_0_r. Qed.

(** What one call of [set_bit] does to the bit it names, to a bit it does
    not name, and to the frame base. *)
Lemma set_bit_same (bit : Z) (value : bool) (e : PageTableEntry) :
  bit <> 0 -> Z.land (not64 bit) bit = 0 ->
  test_flag bit (set_bit bit value e) = value.
Proof.
  intros Hnz Hclr. unfold test_flag, set_bit.
  destruct value; cbn [m_raw].
  - rewrite lor_land_same. now rewrite (proj2 (Z.eqb_neq _ _) Hnz).
  - now rewrite (land_land_cleared _ _ _ Hclr).
Qed.

Lemma set_bit_other (bit bit' : Z) (value : bool) (e : PageTableEntry) :
  Z.land bit bit' = 0 -> Z.land (not64 bit) bit' = bit' ->
  test_flag bit' (set_bit bit value e) = test_flag bit' e.
Proof.
  intros Hdis Hkeep. unfold test_flag, set_bit.
  destruct value; cbn [m_raw].
  - now rewrite (lor_land_other _ _ _ Hdis).
  - now rewrite (land_land_kept _ _ _ Hkeep).
Qed.

Lemma set_bit_frame_base (bit : Z) (value : bool) (e : PageTableEntry) :
  Z.land bit PHYS_MASK = 0 -> Z.land (not64 bit) PHYS_MASK = PHYS_MASK ->
  frame_base (set_bit bit value e) = frame_base e.
Proof.
  intros Hdis Hkeep. unfold frame_base, set_bit.
  destruct value; cbn [m_raw].
  - now rewrite (lor_land_other _ _ _ Hdis).
  - now rewrite (land_land_kept _ _ _ Hkeep).
Qed.

Lemma set_bit_u64 (bit : Z) (value : bool) (e : PageTableEntry) :
  in_u64 bit -> in_u64 (m_raw e) -> in_u64 (m_raw (set_bit bit value e)).
Proof.
  intros Hb He. unfold set_bit. destruct value; cbn [m_raw].
  - now apply lor_u64.
  - now apply land_u64.
Qed.

(** Every flag getter reads back what its setter wrote. *)
Theorem X_flag_setter_getter (e : PageTableEntry) (b : bool) :
  is_present (set_present b e) = b /\
  is_writable (set_writable b e) = b /\
  is_user (set_user b e) = b /\
  is_huge (set_huge b e) = b /\
  is_global (set_global b e) = b /\
  is_execute_disabled (set_execute_disabled b e) = b.
Proof.
  repeat apply conj; apply set_bit_same; (discriminate || reflexivity).
Qed.

(** A flag setter changes no other flag and not the frame base, and keeps
    the entry a 64-bit word. *)
Theorem X_flag_setter_independent (e : PageTableEntry) (bit : Z)
        (b : bool) :
  In bit pte_accessor_bits ->
  (forall bit', In bit' pte_accessor_bits -> bit' <> bit ->
                test_flag bit' (set_bit bit b e) = test_flag bit' e) /\
  frame_base (set_bit bit b e) = frame_base e /\
  (in_u64 (m_raw e) -> in_u64 (m_raw (set_bit bit b e))).
Proof.
  intros Hbit. split; [ | split].
  - intros bit' Hbit' Hne.
    apply set_bit_other;
      cbn in Hbit, Hbit';
      repeat (destruct Hbit as [<- | Hbit]; [ | ]);
      try contradiction;
      repeat (destruct Hbit' as [<- | Hbit']; [ | ]);
      try contradiction; (reflexivity || (exfalso; now apply Hne)).
  - apply set_bit_frame_base;
      cbn in Hbit;
      repeat (destruct Hbit as [<- | Hbit]; [ | ]);
      try contradiction; reflexivity.
  - apply set_bit_u64.
    cbn in Hbit;
      repeat (destruct Hbit as [<- | Hbit]; [ | ]);
      try contradiction; unfold in_u64; vm_compute;
      (split; [discriminate | reflexivity]).
Qed.

Lemma X_flag_setter_independent_witness :
  let e := mkPTE 0x8000000012345007 in
  is_present (set_writable false e) = true /\
  is_execute_disabled (set_user false e) = true /\
  frame_base (set_execute_disabled false e) = 0x12345000.
Proof.
  intros e.
  destruct (X_flag_setter_independent e ReadWrite false) as (Hw & _);
    [right; left; reflexivity | ].
  destruct (X_flag_setter_independent e User false) as (Hu & _);
    [right; right; left; reflexivity | ].
  destruct (X_flag_setter_independent e NoExecute false) as (_ & Hx & _);
    [do 5 right; left; reflexivity | ].
  split; [ | split].
  - change (test_flag Present (set_bit ReadWrite false e) = true).
    rewrite Hw; [reflexivity | left; reflexivity | discriminate].
  - change (test_flag NoExecute (set_bit User false e) = true).
    rewrite Hu; [reflexivity | do 5 right; left; reflexivity | discriminate].
  - change (frame_base (set_bit NoExecute false e) = 0x12345000).
    rewrite Hx. reflexivity.
Defined.

(** [set_flags] accepts every combination of the flags of the enumeration;
    afterwards each getter tells whether its flag was in the combination,
    and the frame base is the old one. *)
Theorem X_set_flags_of_enum (e : PageTableEntry) (flags : Z) :
  Z.land flags pte_all_flags = flags ->
  exists e',
    set_flags flags e = Ret e' /\
    frame_base e' = frame_base e /\
    (forall bit, In bit pte_accessor_bits ->
                 test_flag bit e' = negb (Z.land flags bit =? 0)).
Proof.
  intros Hf.
  assert (Hout : Z.land flags (Z.lnot PHYS_MASK) = flags).
  { rewrite <- Hf, <- Z.land_assoc. reflexivity. }
  eexists. split; [apply PageTableFacts.set_flags_accepts; exact Hout | ].
  unfold frame_base, test_flag. cbn [m_raw]. split.
  - rewrite Z.land_lor_distr_l.
    rewrite (PageTableFacts.flags_have_no_base_bits flags Hout).
    rewrite <- Z.land_assoc, Z.land_diag. apply Z.lor_0_r.
  - intros bit Hbit. rewrite Z.land_lor_distr_l.
    assert (Hz : Z.land (Z.land (m_raw e) PHYS_MASK) bit = 0).
    { apply land_land_cleared.
      cbn in Hbit;
        repeat (destruct Hbit as [<- | Hbit]; [ | ]);
        try contradiction; reflexivity. }
    now rewrite Hz, Z.lor_0_l.
Qed.

Lemma X_set_flags_of_enum_witness :
  exists e',
    set_flags (Z.lor Present User) (mkPTE 0x8000000012345002) = Ret e' /\
    frame_base e' = 0x12345000 /\
    is_present e' = true /\ is_user e' = true /\
    is_writable e' = false /\ is_execute_disabled e' = false.
Proof.
  destruct (X_set_flags_of_enum (mkPTE 0x8000000012345002)
              (Z.lor Present User) eq_refl) as (e' & Hret & Hbase & Hget).
  exists e'. split; [exact Hret | split; [exact Hbase | ]].
  unfold is_present, is_user, is_writable, is_execute_disabled.
  rewrite !Hget by (cbn; tauto). repeat split.
Defined.

Lemma PHYS_MASK_fixed_iff (base : Z) :
  Z.land base PHYS_MASK = base <->
  (0 <= base < 2 ^ 52 /\ base mod 4096 = 0).
Proof.
  split.
  - intros H.
    assert (H52 : base mod 2 ^ 52 = base).
    { rewrite <- Z.land_ones by lia. rewrite <- H.
      rewrite <- Z.land_assoc. reflexivity. }
    assert (H12 : base mod 2 ^ 12 = 0).
    { rewrite <- Z.land_ones by lia. rewrite <- H.
      rewrite <- Z.land_assoc.
      change (Z.land PHYS_MASK (Z.ones 12)) with 0. apply Z.land_0_r. }
    pose proof (Z.mod_pos_bound base (2 ^ 52) ltac:(lia)).
    change (2 ^ 12) with 4096 in H12. split; [lia | exact H12].
  - intros [Hr Hm].
    pose proof (Z.div_mod base 4096 ltac:(lia)) as Hd.
    rewrite Hm, Z.add_0_r in Hd.
    set (q := base / 4096) in *.
    assert (Hq : 0 <= q < 2 ^ 40) by lia.
    assert (Hs : base = Z.shiftl q 12)
      by (rewrite Z.shiftl_mul_pow2 by lia; change (2 ^ 12) with 4096; lia).
    rewrite Hs. change PHYS_MASK with (Z.shiftl (Z.ones 40) 12).
    rewrite <- Z.shiftl_land, Z.land_ones by lia.
    now rewrite Z.mod_small.
Qed.

(** [set_frame_base] accepts exactly the page-aligned bases below 2^52. *)
Theorem X_set_frame_base_accepts_iff (e : PageTableEntry) (base : Z) :
  (exists e', set_frame_base base e = Ret e') <->
  (0 <= base < 2 ^ 52 /\ base mod PAGE_SIZE = 0).
Proof.
  change PAGE_SIZE with 4096. rewrite <- PHYS_MASK_fixed_iff. split.
  - intros (e' & H). unfold set_frame_base in H.
    destruct (Z.land base PHYS_MASK =? base) eqn:E; [ | discriminate H].
    now apply Z.eqb_eq.
  - intros H. eexists. now apply PageTableFacts.set_frame_base_accepts.
Qed.

(** Whatever the entry holds, [frame_base] is page-aligned and below 2^52,
    and the entry is its frame base and its flag bits put together, which
    have no bit in common. *)
Theorem X_frame_base_aligned (e : PageTableEntry) :
  0 <= frame_base e < 2 ^ 52 /\
  frame_base e mod PAGE_SIZE = 0 /\
  Z.lor (frame_base e) (PHYS_FLAGS (raw e)) = raw e /\
  Z.land (frame_base e) (PHYS_FLAGS (raw e)) = 0 /\
  (exists e', set_frame_base (frame_base e) e = Ret e' /\ raw e' = raw e).
Proof.
  assert (Hfix : Z.land (frame_base e) PHYS_MASK = frame_base e).
  { unfold frame_base. now rewrite <- Z.land_assoc, Z.land_diag. }
  destruct (proj1 (PHYS_MASK_fixed_iff _) Hfix) as [Hr Hm].
  assert (Hjoin : Z.lor (Z.land (m_raw e) PHYS_MASK)
                        (Z.land (m_raw e) (Z.lnot PHYS_MASK)) = m_raw e).
  { rewrite <- Z.land_lor_distr_r.
    replace (Z.lor PHYS_MASK (Z.lnot PHYS_MASK)) with (-1) by reflexivity.
    apply Z.land_m1_r. }
  split; [exact Hr | split; [exact Hm | split; [exact Hjoin | split]]].
  - unfold frame_base, PHYS_FLAGS, raw.
    rewrite (Z.land_comm (m_raw e) (Z.lnot PHYS_MASK)), Z.land_assoc.
    rewrite PageTableFacts.masked_in. apply Z.land_0_l.
  - eexists. split;
      [apply PageTableFacts.set_frame_base_accepts; exact Hfix | ].
    unfold raw, frame_base. cbn [m_raw]. rewrite Z.lor_comm. exact Hjoin.
Qed.

End PageTableEntryMore.

(** ** Parsing *)

Lemma init_ret (path : string) (f : ElfFile) (p : ElfParser) :
  init path f = Ret p ->
  p = {| m_path := path;
         m_phinfo := {| ph_e_phoff := e_phoff (ehdr f);
                        ph_e_phentsize := e_phentsize (ehdr f);
                        ph_e_phnum := e_phnum (ehdr f) |};
         m_type := e_type (ehdr f);
         m_entry := e_entry (ehdr f);
         m_load_addr := st_load_addr (get_segments f);
         m_initial_brk := st_initial_brk (get_segments f);
         m_interpreter := st_interpreter (get_segments f);
         m_segments := st_segments (get_segments f);
         m_sections := get_sections f;
         m_symbols := get_symbols f (get_sections f);
         m_dependencies := get_dependencies f;
         m_debug := debug_of f |}.
Proof.
  unfold init, ASSERT, bind.
  destruct (ei_class (ehdr f) =? ELFCLASS); [ | discriminate].
  destruct (e_machine (ehdr f) =? EM); [ | discriminate].
  destruct ((e_type (ehdr f) =? ET_EXEC) || (e_type (ehdr f) =? ET_DYN));
    [ | discriminate].
  destruct (e_type (ehdr f) =? ET_DYN).
  - destruct (st_load_addr (get_segments f) =? 0); [ | discriminate].
    now intros [= <-].
  - now intros [= <-].
Qed.

Lemma fold_min_lower (l : list Z) (a b : Z) :
  b <= a -> (forall x, In x l -> b <= x) -> b <= fold_left Z.min l a.
Proof.
  intros Ha Hl. destruct (fold_min_spec l a) as (_ & _ & [-> | Hin]);
    [assumption | now apply Hl].
Qed.

(** The load address the segment loop computes is 0 exactly when some
    loadable header is at address 0. *)
Lemma load_addr_zero_iff (f : ElfFile) :
  (forall ph, In ph (phdr f) -> in_u64 (p_vaddr ph)) ->
  (st_load_addr (get_segments f) = 0 <->
   exists ph, In ph (phdr f) /\ p_type ph = PT_LOAD /\ p_vaddr ph = 0).
Proof.
  intros Hall. unfold get_segments. rewrite fold_seg_step_load_addr.
  cbn [seg_state0 st_load_addr].
  set (l := map p_vaddr (filter is_load (phdr f))).
  assert (Hl : forall x, In x l ->
                 exists ph, In ph (phdr f) /\ p_type ph = PT_LOAD /\
                            p_vaddr ph = x).
  { intros x Hx. apply in_map_iff in Hx. destruct Hx as (ph & <- & Hin).
    apply filter_In in Hin. destruct Hin as [Hin Hld]. exists ph.
    split; [assumption | split; [now apply Z.eqb_eq | reflexivity]]. }
  destruct (fold_min_spec l UINT64_MAX) as (_ & Hmin & Hin). split.
  - intros H0. destruct Hin as [Heq | Hin].
    + rewrite H0 in Heq. discriminate Heq.
    + rewrite H0 in Hin. now apply Hl.
  - intros (ph & Hph & Hld & Hz).
    assert (H1 : fold_left Z.min l UINT64_MAX <= 0).
    { rewrite <- Hz. apply Hmin. apply in_map. apply filter_In.
      split; [assumption | now apply Z.eqb_eq]. }
    assert (H2 : 0 <= fold_left Z.min l UINT64_MAX).
    { apply fold_min_lower; [unfold UINT64_MAX; lia | ].
      intros x Hx. destruct (Hl x Hx) as (ph' & Hph' & _ & <-).
      now apply Hall. }
    lia.
Qed.

(** [init] succeeds exactly on a 64-bit x86-64 file that is an executable,
    or a shared object with a loadable segment at address 0.  In
    particular a shared object without any loadable segment is refused. *)
Theorem X_init_succeeds_iff (path : string) (f : ElfFile) :
  (forall ph, In ph (phdr f) -> in_u64 (p_vaddr ph)) ->
  ((exists p, init path f = Ret p) <->
   (ei_class (ehdr f) = ELFCLASS /\ e_machine (ehdr f) = EM /\
    (e_type (ehdr f) = ET_EXEC \/
     (e_type (ehdr f) = ET_DYN /\
      exists ph, In ph (phdr f) /\ p_type ph = PT_LOAD /\ p_vaddr ph = 0)))).
Proof.
  intros Hall. rewrite <- (load_addr_zero_iff f Hall). split.
  - intros (p & Hp). destruct (init_inv _ _ _ Hp) as (Hc & Hm & Ht & Hd & _).
    split; [assumption | split; [assumption | ]].
    destruct Ht as [Ht | Ht]; [now left | right]. split; [assumption | ].
    now apply Hd.
  - intros (Hc & Hm & Ht). unfold init, ASSERT, bind.
    rewrite Hc, Hm, !Z.eqb_refl.
    destruct Ht as [Ht | [Ht H0]]; rewrite Ht.
    + cbn. eexists. reflexivity.
    + rewrite H0. cbn. eexists. reflexivity.
Qed.

Lemma X_init_succeeds_iff_witness :
  (exists p, init "a.out" (file_sample ET_DYN) = Ret p) /\
  ~ (exists p, init "a.out" (file_sample 1) = Ret p) /\
  ~ (exists p,
        init "lib.so"
             (mkElfFile (ehdr_sample ET_DYN) [] [] (fun _ => EmptyString)
                        (fun _ _ => mkSym 0 0 0 0 0 0) [] debug_none)
        = Ret p).
Proof.
  assert (Hrange : forall ph, In ph (phdr (file_sample ET_DYN)) ->
                              in_u64 (p_vaddr ph)).
  { intros ph [<- | [<- | [<- | []]]]; unfold in_u64; simpl; lia. }
  split; [ | split].
  - apply (X_init_succeeds_iff "a.out" (file_sample ET_DYN) Hrange).
    split; [reflexivity | split; [reflexivity | right]].
    split; [reflexivity | ].
    exists (mkPhdr PT_LOAD 5 0 0 0 0x1800 0x1800 0x1000).
    split; [right; right; left; reflexivity | split; reflexivity].
  - intros H. apply (X_init_succeeds_iff "a.out" (file_sample 1) Hrange) in H.
    destruct H as (_ & _ & [H | [H _]]); discriminate H.
  - intros H.
    apply (X_init_succeeds_iff "lib.so"
             (mkElfFile (ehdr_sample ET_DYN) [] [] (fun _ => EmptyString)
                        (fun _ _ => mkSym 0 0 0 0 0 0) [] debug_none)) in H.
    + destruct H as (_ & _ & [H | [_ (ph & [] & _)]]). discriminate H.
    + intros ph [].
Defined.

Lemma PAGE_CEIL_aligned (addr : Z) : PAGE_CEIL addr mod PAGE_SIZE = 0.
Proof.
  unfold PAGE_CEIL. change PAGE_SIZE with (2 ^ 12).
  rewrite <- Z.land_ones by lia. rewrite <- Z.land_assoc.
  change (Z.land (Z.lnot (2 ^ 12 - 1)) (Z.ones 12)) with 0.
  apply Z.land_0_r.
Qed.

Lemma PAGE_CEIL_u64 (addr : Z) : in_u64 (PAGE_CEIL addr).
Proof. unfold PAGE_CEIL. apply land_u64. apply wrap64_range. Qed.

Lemma filter_is_load_none (l : list Elf_Phdr) :
  (forall ph, In ph l -> p_type ph <> PT_LOAD) -> filter is_load l = [].
Proof.
  induction l as [ | ph l IH]; intros Hnone; [reflexivity | ].
  cbn [filter]. unfold is_load at 1.
  rewrite (proj2 (Z.eqb_neq _ _) (Hnone ph (or_introl eq_refl))).
  apply IH. intros ph' H'. apply Hnone. now right.
Qed.

(** The initial break [init] computes is a page-aligned 64-bit value that
    lies at or beyond the end of every loadable segment whose page-rounded
    end fits in 64 bits, and so at or beyond the load address.  Without a
    loadable segment the break is 0 and the load address stays at the
    largest 64-bit value. *)
Theorem X_initial_brk_covers_segments (path : string) (f : ElfFile)
        (p : ElfParser) :
  init path f = Ret p ->
  initial_brk p mod PAGE_SIZE = 0 /\
  in_u64 (initial_brk p) /\
  (forall ph, In ph (phdr f) -> p_type ph = PT_LOAD ->
              0 <= p_vaddr ph -> 0 <= p_memsz ph ->
              p_vaddr ph + p_memsz ph + PAGE_SIZE - 1 < 2 ^ 64 ->
              load_addr p <= p_vaddr ph /\
              p_vaddr ph + p_memsz ph <= initial_brk p) /\
  ((forall ph, In ph (phdr f) -> p_type ph <> PT_LOAD) ->
   initial_brk p = 0 /\ load_addr p = UINT64_MAX).
Proof.
  intros Hinit.
  destruct (init_inv _ _ _ Hinit) as (_ & _ & _ & _ & _ & _ & Hla & Hbrk & _).
  unfold load_addr, initial_brk. rewrite Hla, Hbrk. unfold get_segments.
  rewrite fold_seg_step_load_addr, fold_seg_step_initial_brk.
  cbn [seg_state0 st_load_addr st_initial_brk].
  set (loads := filter is_load (phdr f)).
  destruct (fold_min_spec (map p_vaddr loads) UINT64_MAX) as (_ & Hmin & _).
  destruct (fold_max_spec (map page_end loads) 0) as (_ & Hmax & Hmax_in).
  split; [ | split; [ | split]].
  - destruct Hmax_in as [-> | Hin]; [reflexivity | ].
    apply in_map_iff in Hin. destruct Hin as (ph & <- & _).
    apply PAGE_CEIL_aligned.
  - destruct Hmax_in as [-> | Hin]; [unfold in_u64; lia | ].
    apply in_map_iff in Hin. destruct Hin as (ph & <- & _).
    apply PAGE_CEIL_u64.
  - intros ph Hin Hty Hv Hm Hfit.
    assert (Hld : In ph loads)
      by (apply filter_In; split; [assumption | now apply Z.eqb_eq]).
    split; [apply Hmin; now apply in_map | ].
    assert (Hend : p_vaddr ph + p_memsz ph <= page_end ph).
    { unfold page_end. rewrite wrap64_small by (unfold PAGE_SIZE in Hfit; lia).
      rewrite PAGE_CEIL_no_wrap by lia.
      unfold PAGE_SIZE.
      pose proof (Z.div_mod (p_vaddr ph + p_memsz ph + 4096 - 1) 4096
                    ltac:(lia)).
      pose proof (Z.mod_pos_bound (p_vaddr ph + p_memsz ph + 4096 - 1) 4096
                    ltac:(lia)).
      lia. }
    specialize (Hmax (page_end ph) (in_map page_end _ _ Hld)). lia.
  - intros Hnone.
    assert (Hnil : loads = []).
    { unfold loads. now apply filter_is_load_none. }
    rewrite Hnil. split; reflexivity.
Qed.

Lemma X_initial_brk_covers_segments_witness :
  initial_brk parsed_sample mod PAGE_SIZE = 0 /\
  0x2000 + 0x345 <= initial_brk parsed_sample /\
  load_addr parsed_sample <= 0x2000.
Proof.
  destruct (X_initial_brk_covers_segments "a.out" (file_sample ET_EXEC)
              parsed_sample eq_refl) as (Hal & _ & Hcov & _).
  split; [exact Hal | ].
  destruct (Hcov (mkPhdr PT_LOAD 6 0x2000 0x2000 0x2000 0x300 0x345 0x1000))
    as [Hlo Hhi];
    [left; reflexivity | reflexivity | cbn; lia | cbn; lia
     | cbn; unfold PAGE_SIZE; lia | ].
  split; [exact Hhi | exact Hlo].
Defined.










Lemma fold_seg_step_interpreter_none (f : ElfFile) (l : list Elf_Phdr) :
  forall s,
    (forall ph, In ph l -> p_type ph <> PT_INTERP) ->
    st_interpreter (fold_left (seg_step f) l s) = st_interpreter s.
Proof.
  induction l as [ | ph l IH]; intros s Hnone; [reflexivity | ].
  cbn [fold_left]. rewrite IH by (intros ph' H'; apply Hnone; now right).
  unfold seg_step. cbn [segment_of seg_type].
  rewrite (proj2 (Z.eqb_neq _ _) (Hnone ph (or_introl eq_refl))).
  destruct (p_type ph =? PT_LOAD); reflexivity.
Qed.

(** The interpreter of a parsed image is the string at the file offset of
    the last [PT_INTERP] program header, and empty without one. *)
Theorem X_interpreter_of_last_PT_INTERP (path : string) (f : ElfFile)
        (p : ElfParser) :
  init path f = Ret p ->
  ((forall ph, In ph (phdr f) -> p_type ph <> PT_INTERP) ->
   m_interpreter p = EmptyString) /\
  (forall pre ph post,
      phdr f = pre ++ ph :: post ->
      p_type ph = PT_INTERP ->
      (forall ph', In ph' post -> p_type ph' <> PT_INTERP) ->
      m_interpreter p = cstr f (p_offset ph)).
Proof.
  intros Hinit. apply init_ret in Hinit. subst p. cbn [m_interpreter].
  unfold get_segments. split.
  - intros Hnone. now rewrite fold_seg_step_interpreter_none.
  - intros pre ph post -> Hty Hpost.
    rewrite fold_left_app. cbn [fold_left].
    rewrite fold_seg_step_interpreter_none by assumption.
    unfold seg_step. cbn [segment_of seg_type seg_offset].
    rewrite Hty. reflexivity.
Qed.

Lemma X_interpreter_of_last_PT_INTERP_witness :
  exists p,
    init "a.out" file_full = Ret p /\
    m_interpreter p = "/lib64/ld-linux-x86-64.so.2" /\
    m_interpreter parsed_sample = EmptyString.
Proof.
  destruct (init "a.out" file_full) as [p | msg] eqn:Hinit;
    [ | discriminate Hinit].
  exists p. split; [reflexivity | ].
  destruct (X_interpreter_of_last_PT_INTERP "a.out" file_full p Hinit)
    as (_ & Hlast).
  split; [ | reflexivity].
  apply (Hlast [] (mkPhdr PT_INTERP 4 0x238 0x238 0x238 0x1c 0x1c 1)
               phdr_sample); [reflexivity | reflexivity | ].
  intros ph' [<- | [<- | [<- | []]]]; discriminate.
Defined.

(** ** Relocation, continued *)

Lemma set_load_addr_ret (new_load_addr : Z) (p p' : ElfParser) :
  set_load_addr new_load_addr p = Ret p' ->
  m_type p = ET_DYN /\
  p' = let diff := wrap64 (new_load_addr - m_load_addr p) in
       {| m_path := m_path p;
          m_phinfo := m_phinfo p;
          m_type := m_type p;
          m_entry := wrap64 (m_entry p + diff);
          m_load_addr := new_load_addr;
          m_initial_brk := wrap64 (m_initial_brk p + diff);
          m_interpreter := m_interpreter p;
          m_segments := map (shift_segment diff) (m_segments p);
          m_sections := map (shift_section diff) (m_sections p);
          m_symbols := map (shift_symbol diff) (m_symbols p);
          m_dependencies := m_dependencies p;
          m_debug := m_debug p |}.
Proof.
  intros H. destruct (Z.eq_dec (m_type p) ET_DYN) as [Hpie | Hnot].
  - split; [assumption | ]. rewrite set_load_addr_pie in H by assumption.
    now injection H as <-.
  - rewrite set_load_addr_not_pie in H by assumption. discriminate H.
Qed.

Lemma section_limits_in_shifted (d : Z) (name : string)
      (l : list section_t) :
  section_limits_in (map (shift_section d) l) name
  = match section_limits_in l name with
    | Ret (lo, hi) => Ret (wrap64 (lo + d), wrap64 (hi + d))
    | AssertFail msg => AssertFail msg
    end.
Proof.
  induction l as [ | s l IH]; [reflexivity | ].
  cbn [map section_limits_in shift_section sec_name sec_addr sec_size].
  destruct (String.eqb (sec_name s) name); [ | exact IH].
  rewrite wrap64_add_l. f_equal. f_equal.
  rewrite (wrap64_add_l (sec_addr s + sec_size s)). f_equal. lia.
Qed.

Lemma symbol_limits_in_shifted (d : Z) (name : string)
      (l : list symbol_t) :
  symbol_limits_in (map (shift_symbol d) l) name
  = match symbol_limits_in l name with
    | Ret (lo, hi) => Ret (wrap64 (lo + d), wrap64 (hi + d))
    | AssertFail msg => AssertFail msg
    end.
Proof.
  induction l as [ | s l IH]; [reflexivity | ].
  cbn [map symbol_limits_in shift_symbol sym_name sym_value sym_size].
  destruct (String.eqb (sym_name s) name); [ | exact IH].
  rewrite wrap64_add_l. f_equal. f_equal.
  rewrite (wrap64_add_l (sym_value s + sym_size s)). f_equal. lia.
Qed.

(** Lookups by name commute with relocation: after [set_load_addr] a name
    is found exactly when it was found before, and its interval is the old
    one with both ends moved by the delta. *)
Theorem X_limits_after_relocation (p p' : ElfParser) (new_load_addr : Z)
        (name : string) :
  set_load_addr new_load_addr p = Ret p' ->
  let delta := wrap64 (new_load_addr - load_addr p) in
  section_limits p' name
  = match section_limits p name with
    | Ret (lo, hi) => Ret (wrap64 (lo + delta), wrap64 (hi + delta))
    | AssertFail msg => AssertFail msg
    end /\
  symbol_limits p' name
  = match symbol_limits p name with
    | Ret (lo, hi) => Ret (wrap64 (lo + delta), wrap64 (hi + delta))
    | AssertFail msg => AssertFail msg
    end.
Proof.
  intros H delta. destruct (set_load_addr_ret _ _ _ H) as [_ ->].
  unfold section_limits, symbol_limits, sections, symbols.
  cbn [m_sections m_symbols].
  split; [apply section_limits_in_shifted | apply symbol_limits_in_shifted].
Qed.

Lemma X_limits_after_relocation_witness :
  exists p',
    set_load_addr 0x555555554000 pie_image = Ret p' /\
    section_limits p' ".text" = Ret (0x555555555000, 0x555555556000) /\
    symbol_limits p' "helper" = Ret (0x555555555040, 0x555555555060) /\
    symbol_limits p' "start" = AssertFail "not found symbol".
Proof.
  destruct (set_load_addr 0x555555554000 pie_image) as [p' | msg] eqn:Hret;
    [ | discriminate Hret].
  exists p'. split; [reflexivity | ].
  destruct (X_limits_after_relocation pie_image p' 0x555555554000 ".text"
              Hret) as (Hsec & _).
  destruct (X_limits_after_relocation pie_image p' 0x555555554000 "helper"
              Hret) as (_ & Hsym).
  destruct (X_limits_after_relocation pie_image p' 0x555555554000 "start"
              Hret) as (_ & Hnone).
  split; [exact Hsec | split; [exact Hsym | exact Hnone]].
Defined.

Lemma wrap64_there_and_back (x a l : Z) :
  in_u64 x -> wrap64 (wrap64 (x + wrap64 (a - l)) + wrap64 (l - a)) = x.
Proof.
  intros Hx. rewrite wrap64_shift_twice, Z.sub_diag.
  change (wrap64 0) with 0. rewrite Z.add_0_r. now apply wrap64_small.
Qed.

Lemma map_shift_back {A : Type} (g h : A -> A) (P : A -> Prop)
      (l : list A) :
  (forall x, P x -> h (g x) = x) -> Forall P l -> map h (map g l) = l.
Proof.
  intros Hgh Hl. rewrite map_map.
  induction Hl as [ | x l Hx _ IH]; cbn [map]; [reflexivity | ].
  now rewrite Hgh, IH.
Qed.

(** Relocating a position-independent image whose addresses are 64-bit
    values to any address and then back to its load address restores the
    image, field for field. *)
Theorem X_relocate_and_back (p : ElfParser) (A : Z) :
  m_type p = ET_DYN ->
  image_in_u64 p ->
  exists pA,
    set_load_addr A p = Ret pA /\
    set_load_addr (load_addr p) pA = Ret p.
Proof.
  intros Hpie (He & Hb & Hseg & Hsec & Hsym).
  eexists. split; [apply set_load_addr_pie; assumption | ].
  rewrite set_load_addr_pie by assumption.
  cbn zeta. unfold load_addr.
  cbn [m_path m_phinfo m_type m_entry m_load_addr m_initial_brk
       m_interpreter m_segments m_sections m_symbols m_dependencies m_debug].
  rewrite !wrap64_there_and_back by assumption.
  set (d1 := wrap64 (A - m_load_addr p)).
  set (d2 := wrap64 (m_load_addr p - A)).
  assert (Hs1 : map (shift_segment d2) (map (shift_segment d1) (m_segments p))
                = m_segments p).
  { apply map_shift_back
      with (P := fun s => in_u64 (seg_vaddr s) /\ in_u64 (seg_paddr s));
      [ | exact Hseg].
    intros s [Hv Hp]. destruct s. unfold shift_segment, d1, d2. cbn in *.
    now rewrite !wrap64_there_and_back. }
  assert (Hs2 : map (shift_section d2) (map (shift_section d1) (m_sections p))
                = m_sections p).
  { apply map_shift_back with (P := fun s => in_u64 (sec_addr s));
      [ | exact Hsec].
    intros s Hs. destruct s. unfold shift_section, d1, d2. cbn in *.
    now rewrite wrap64_there_and_back. }
  assert (Hs3 : map (shift_symbol d2) (map (shift_symbol d1) (m_symbols p))
                = m_symbols p).
  { apply map_shift_back with (P := fun s => in_u64 (sym_value s));
      [ | exact Hsym].
    intros s Hs. destruct s. unfold shift_symbol, d1, d2. cbn in *.
    now rewrite wrap64_there_and_back. }
  rewrite Hs1, Hs2, Hs3. now destruct p.
Qed.

Lemma image_at_400000_in_u64 : image_in_u64 image_at_400000.
Proof.
  unfold image_in_u64, image_at_400000.
  cbn [m_entry m_initial_brk m_segments m_sections m_symbols].
  repeat first [ apply Forall_nil | apply Forall_cons
               | (unfold in_u64; cbn; lia) | split ].
Qed.

Lemma X_relocate_and_back_witness :
  exists pA,
    set_load_addr 0x7f0000000000 image_at_400000 = Ret pA /\
    set_load_addr 0x400000 pA = Ret image_at_400000.
Proof.
  apply (X_relocate_and_back image_at_400000 0x7f0000000000 eq_refl
           image_at_400000_in_u64).
Defined.

(** Whatever the image held before, after a relocation to a 64-bit address
    every address of the image is a 64-bit value, and the sizes, names and
    numbers of its segments, sections and symbols are the old ones. *)
Theorem X_relocation_keeps_u64 (p p' : ElfParser) (new_load_addr : Z) :
  set_load_addr new_load_addr p = Ret p' ->
  in_u64 new_load_addr ->
  image_in_u64 p' /\ in_u64 (load_addr p') /\
  type p' = ET_DYN /\
  map seg_memsize (segments p') = map seg_memsize (segments p) /\
  map sec_name (sections p') = map sec_name (sections p) /\
  map sec_size (sections p') = map sec_size (sections p) /\
  map sym_name (symbols p') = map sym_name (symbols p) /\
  map sym_size (symbols p') = map sym_size (symbols p).
Proof.
  intros H Hnew. destruct (set_load_addr_ret _ _ _ H) as [Hpie ->].
  cbn zeta. unfold image_in_u64, load_addr, type, segments, sections, symbols.
  cbn [m_entry m_initial_brk m_segments m_sections m_symbols m_load_addr
       m_type].
  rewrite !map_map. cbn [shift_segment shift_section shift_symbol
    seg_memsize sec_name sec_size sym_name sym_size].
  split; [ | split; [exact Hnew | split; [exact Hpie | ]]].
  - split; [apply wrap64_range | split; [apply wrap64_range | ]].
    split; [ | split]; apply Forall_map, Forall_forall; intros s _;
      cbn [shift_segment shift_section shift_symbol seg_vaddr seg_paddr
           sec_addr sym_value];
      try split; apply wrap64_range.
  - repeat split.
Qed.

Lemma X_relocation_keeps_u64_witness :
  exists p',
    set_load_addr 0xffffffffffffe000 image_at_400000 = Ret p' /\
    image_in_u64 p' /\
    map seg_vaddr (segments p') = [0xffffffffffffe000] /\
    initial_brk p' = 0x1000.
Proof.
  destruct (set_load_addr 0xffffffffffffe000 image_at_400000)
    as [p' | msg] eqn:Hret; [ | discriminate Hret].
  exists p'. split; [reflexivity | ].
  destruct (X_relocation_keeps_u64 image_at_400000 p' 0xffffffffffffe000
              Hret) as (Hu & _); [unfold in_u64; lia | ].
  split; [exact Hu | ].
  vm_compute in Hret. injection Hret as <-. split; reflexivity.
Defined.

(** Source lookup is invariant under relocation: the relocated image maps
    a relocated address to the source the original image maps the original
    address to. *)
Theorem X_addr_to_source_relocated (p p' : ElfParser) (new_load_addr : Z)
        (addr : Z) :
  set_load_addr new_load_addr p = Ret p' ->
  elf_addr_to_source p'
    (wrap64 (addr + wrap64 (new_load_addr - load_addr p)))
  = elf_addr_to_source p addr.
Proof.
  intros H. destruct (set_load_addr_ret _ _ _ H) as [Hpie ->].
  unfold elf_addr_to_source, load_addr. cbn zeta.
  cbn [m_type m_load_addr m_debug]. rewrite Hpie, Z.eqb_refl.
  f_equal. rewrite wrap64_add_r.
  unfold wrap64. rewrite Zminus_mod_idemp_l. f_equal. lia.
Qed.

Lemma X_addr_to_source_relocated_witness :
  exists p',
    set_load_addr 0x555555554000 pie_image = Ret p' /\
    elf_addr_to_source p' 0x555555555010 = elf_addr_to_source pie_image 0x1010.
Proof.
  destruct (set_load_addr 0x555555554000 pie_image) as [p' | msg] eqn:Hret;
    [ | discriminate Hret].
  exists p'. split; [reflexivity | ].
  exact (X_addr_to_source_relocated pie_image p' 0x555555554000 0x1010 Hret).
Defined.

(** A freshly parsed shared object is at load address 0, so relocating it
    to [A] adds [A] to its entry point, its break and the addresses of its
    segments; a freshly parsed executable cannot be relocated. *)
Theorem X_init_then_relocate (path : string) (f : ElfFile) (p : ElfParser)
        (A : Z) :
  init path f = Ret p ->
  (e_type (ehdr f) = ET_DYN ->
   exists p',
     set_load_addr A p = Ret p' /\
     load_addr p' = A /\
     entry p' = wrap64 (e_entry (ehdr f) + A) /\
     initial_brk p' = wrap64 (initial_brk p + A) /\
     Forall2 (fun ph s => seg_vaddr s = wrap64 (p_vaddr ph + A) /\
                          seg_paddr s = wrap64 (p_paddr ph + A) /\
                          seg_memsize s = p_memsz ph /\
                          seg_type s = p_type ph)
             (phdr f) (segments p')) /\
  (e_type (ehdr f) = ET_EXEC ->
   set_load_addr A p = AssertFail "setting load_addr to not PIE binary").
Proof.
  intros Hinit.
  destruct (init_inv _ _ _ Hinit)
    as (_ & _ & _ & Hzero & Hty & Hen & Hla & _ & Hsegs & _).
  split.
  - intros Hdyn. eexists.
    split; [apply set_load_addr_pie; congruence | ].
    cbn zeta. unfold load_addr, entry, initial_brk, segments.
    cbn [m_load_addr m_entry m_initial_brk m_segments].
    rewrite Hla, (Hzero Hdyn), Z.sub_0_r, !wrap64_add_r, Hen, Hsegs.
    repeat apply conj; try reflexivity.
    rewrite map_map. apply Forall2_map_r. intros ph _.
    cbn [shift_segment segment_of seg_vaddr seg_paddr seg_memsize seg_type].
    now rewrite !wrap64_add_r.
  - intros Hexec. apply set_load_addr_not_pie. rewrite Hty, Hexec.
    discriminate.
Qed.

Lemma X_init_then_relocate_witness :
  exists p p',
    init "a.out" (file_sample ET_DYN) = Ret p /\
    set_load_addr 0x555555554000 p = Ret p' /\
    entry p' = 0x555555555040 /\
    set_load_addr 0x555555554000 parsed_sample
    = AssertFail "setting load_addr to not PIE binary".
Proof.
  destruct (init "a.out" (file_sample ET_DYN)) as [p | msg] eqn:Hinit;
    [ | discriminate Hinit].
  destruct (X_init_then_relocate "a.out" (file_sample ET_DYN) p
              0x555555554000 Hinit) as (Hdyn & _).
  destruct (Hdyn eq_refl) as (p' & Hret & _ & Hentry & _).
  destruct (X_init_then_relocate "a.out" (file_sample ET_EXEC) parsed_sample
              0x555555554000 eq_refl) as (_ & Hexec).
  exists p, p'.
  split; [reflexivity | split; [exact Hret | split; [exact Hentry | ]]].
  apply Hexec. reflexivity.
Defined.

(** ** Lookups and walks, continued *)

Lemma symbol_limits_in_ret (l : list symbol_t) (name : string) (lo hi : Z) :
  symbol_limits_in l name = Ret (lo, hi) ->
  exists s, In s l /\ sym_name s = name /\ sym_value s = lo /\
            wrap64 (sym_value s + sym_size s) = hi.
Proof.
  induction l as [ | s l IH]; cbn [symbol_limits_in]; [discriminate | ].
  destruct (String.eqb_spec (sym_name s) name) as [Hn | Hn].
  - intros [= <- <-]. exists s. repeat split; [now left | assumption].
  - intros H. destruct (IH H) as (s' & Hin & Hrest). exists s'.
    split; [now right | assumption].
Qed.

(** An address inside the limits of a named symbol resolves to a symbol
    that covers it (the named one, or one that precedes it in the table). *)
Theorem X_named_symbol_resolves (p : ElfParser) (name : string)
        (lo hi addr : Z) :
  symbol_limits p name = Ret (lo, hi) ->
  lo <= addr < hi ->
  exists s, addr_to_symbol p addr = Some s /\ in_symbol_interval addr s.
Proof.
  intros Hlim Hin. unfold symbol_limits in Hlim.
  destruct (symbol_limits_in_ret _ _ _ _ Hlim) as (s0 & Hs0 & _ & Hv & Hh).
  unfold addr_to_symbol.
  destruct (addr_to_symbol_in (symbols p) addr) as [s | ] eqn:E.
  - exists s. split; [reflexivity | ].
    apply addr_to_symbol_in_some in E. now destruct E as (_ & _ & _ & E & _).
  - exfalso. rewrite addr_to_symbol_in_none in E. apply (E s0 Hs0).
    unfold in_symbol_interval. now rewrite Hh, Hv.
Qed.

Lemma X_named_symbol_resolves_witness :
  exists s, addr_to_symbol pie_image 0x1044 = Some s /\
            in_symbol_interval 0x1044 s.
Proof.
  apply (X_named_symbol_resolves pie_image "helper" 0x1040 0x1060 0x1044);
    [reflexivity | lia].
Defined.

Lemma lookup_some (elfs : list ElfParser) (addr : Z) (elf : ElfParser) :
  elf_with_addr_in_text elfs addr = Ret (Some elf) ->
  first_text_owner elfs addr elf /\
  forall e, first_text_owner elfs addr e -> e = elf.
Proof.
  revert elf. induction elfs as [ | e0 elfs IH]; intros elf;
    cbn [elf_with_addr_in_text]; [discriminate | ].
  destruct (section_limits e0 ".text") as [[lo hi] | msg] eqn:Hlim;
    cbn [bind fst snd]; [ | discriminate].
  pose proof (text_contains_limits e0 lo hi addr Hlim) as Htc.
  destruct ((lo <=? addr) && (addr <? hi)) eqn:Hc.
  - intros [= <-].
    assert (Hin : text_contains e0 addr).
    { apply Htc. apply andb_true_iff in Hc.
      now rewrite Z.leb_le, Z.ltb_lt in Hc. }
    split.
    + exists [], elfs. split; [reflexivity | split; [exact Hin | ]].
      intros e [].
    + intros e (pre & post & Heq & _ & Hpre). destruct pre as [ | e1 pre].
      * now injection Heq as ->.
      * injection Heq as <- _. exfalso. apply (Hpre e0); [now left | exact Hin].
  - assert (Hout : ~ text_contains e0 addr).
    { rewrite Htc. intros [H1 H2]. apply Z.leb_le in H1. apply Z.ltb_lt in H2.
      rewrite H1, H2 in Hc. discriminate. }
    intros H. destruct (IH elf H) as ((pre & post & -> & Hin & Hpre) & Huniq).
    split.
    + exists (e0 :: pre), post. split; [reflexivity | split; [exact Hin | ]].
      intros e [<- | He]; [exact Hout | now apply Hpre].
    + intros e (pre' & post' & Heq & Hin' & Hpre').
      destruct pre' as [ | e1 pre'].
      * injection Heq as <- _. contradiction.
      * injection Heq as <- Heq. apply Huniq. exists pre', post'.
        split; [exact Heq | split; [exact Hin' | ]].
        intros e2 H2. apply Hpre'. now right.
Qed.

Lemma lookup_none (elfs : list ElfParser) (addr : Z) :
  elf_with_addr_in_text elfs addr = Ret None <->
  forall e, In e elfs -> has_text e /\ ~ text_contains e addr.
Proof.
  induction elfs as [ | e0 elfs IH]; cbn [elf_with_addr_in_text].
  - split; [intros _ e [] | reflexivity].
  - destruct (section_limits e0 ".text") as [[lo hi] | msg] eqn:Hlim;
      cbn [bind fst snd].
    + pose proof (text_contains_limits e0 lo hi addr Hlim) as Htc.
      destruct ((lo <=? addr) && (addr <? hi)) eqn:Hc.
      * split; [discriminate | ]. intros H. exfalso.
        destruct (H e0 (or_introl eq_refl)) as [_ Hout]. apply Hout, Htc.
        apply andb_true_iff in Hc. now rewrite Z.leb_le, Z.ltb_lt in Hc.
      * rewrite IH. split.
        -- intros H e [<- | He]; [ | now apply H].
           split; [now exists (lo, hi) | ].
           rewrite Htc. intros [H1 H2].
           apply Z.leb_le in H1. apply Z.ltb_lt in H2.
           rewrite H1, H2 in Hc. discriminate.
        -- intros H e He. apply H. now right.
    + split; [discriminate | ]. intros H.
      destruct (H e0 (or_introl eq_refl)) as [(r & Hr) _].
      rewrite Hlim in Hr. discriminate Hr.
Qed.

Lemma lookup_fails (elfs : list ElfParser) (addr : Z) (msg : string) :
  elf_with_addr_in_text elfs addr = AssertFail msg <->
  exists pre e post,
    elfs = pre ++ e :: post /\
    section_limits e ".text" = AssertFail msg /\
    forall e0, In e0 pre -> has_text e0 /\ ~ text_contains e0 addr.
Proof.
  induction elfs as [ | e0 elfs IH]; cbn [elf_with_addr_in_text].
  - split; [discriminate | ]. intros (pre & e & post & H & _).
    now destruct pre.
  - destruct (section_limits e0 ".text") as [[lo hi] | m] eqn:Hlim;
      cbn [bind fst snd].
    + pose proof (text_contains_limits e0 lo hi addr Hlim) as Htc.
      destruct ((lo <=? addr) && (addr <? hi)) eqn:Hc.
      * split; [discriminate | ].
        intros (pre & e & post & Heq & Hfail & Hpre).
        destruct pre as [ | e1 pre].
        -- injection Heq as <- _. rewrite Hlim in Hfail. discriminate Hfail.
        -- injection Heq as <- _. exfalso.
           destruct (Hpre e0 (or_introl eq_refl)) as [_ Hout]. apply Hout, Htc.
           apply andb_true_iff in Hc. now rewrite Z.leb_le, Z.ltb_lt in Hc.
      * rewrite IH. split.
        -- intros (pre & e & post & -> & Hfail & Hpre).
           exists (e0 :: pre), e, post.
           split; [reflexivity | split; [exact Hfail | ]].
           intros e1 [<- | H1]; [ | now apply Hpre].
           split; [now exists (lo, hi) | ].
           rewrite Htc. intros [H1 H2].
           apply Z.leb_le in H1. apply Z.ltb_lt in H2.
           rewrite H1, H2 in Hc. discriminate.
        -- intros (pre & e & post & Heq & Hfail & Hpre).
           destruct pre as [ | e1 pre].
           ++ injection Heq as <- _. rewrite Hlim in Hfail.
              discriminate Hfail.
           ++ injection Heq as _ ->. exists pre, e, post.
              split; [reflexivity | split; [exact Hfail | ]].
              intros e2 H2. apply Hpre. now right.
    + split.
      * intros [= <-]. exists [], e0, elfs.
        split; [reflexivity | split; [exact Hlim | intros e []]].
      * intros (pre & e & post & Heq & Hfail & Hpre).
        destruct pre as [ | e1 pre].
        -- injection Heq as <- _. rewrite Hlim in Hfail.
           now injection Hfail as ->.
        -- injection Heq as <- _.
           destruct (Hpre e0 (or_introl eq_refl)) as [(r & Hr) _].
           rewrite Hlim in Hr. discriminate Hr.
Qed.

(** The three outcomes of [elf_with_addr_in_text].  It returns an image
    exactly when that image is the first one whose [.text] range contains
    the address; it returns null exactly when every image has a [.text]
    section and none contains the address; it fails the [ASSERT] exactly
    when an image without [.text] comes before any image that contains the
    address. *)
Theorem X_lookup_outcomes (elfs : list ElfParser) (addr : Z) :
  (forall elf,
      elf_with_addr_in_text elfs addr = Ret (Some elf) ->
      In elf elfs /\ first_text_owner elfs addr elf /\
      forall e, first_text_owner elfs addr e -> e = elf) /\
  (elf_with_addr_in_text elfs addr = Ret None <->
   forall e, In e elfs -> has_text e /\ ~ text_contains e addr) /\
  (forall msg,
      elf_with_addr_in_text elfs addr = AssertFail msg <->
      exists pre e post,
        elfs = pre ++ e :: post /\
        section_limits e ".text" = AssertFail msg /\
        forall e0, In e0 pre -> has_text e0 /\ ~ text_contains e0 addr).
Proof.
  split; [ | split].
  - intros elf H. destruct (lookup_some elfs addr elf H) as [Hown Huniq].
    split; [ | split; assumption].
    destruct Hown as (pre & post & -> & _). apply in_elt.
  - apply lookup_none.
  - intros msg. apply lookup_fails.
Qed.

Section MoreWalks.

Variable num_frames : Z.
Hypothesis num_frames_u64 : in_u64 num_frames.
Variable p : ElfParser.
Variables lo hi : Z.
Hypothesis p_text : section_limits p ".text" = Ret (lo, hi).

(** The single-image loop: what follows the current return address in the
    trace lies in the [.text] range, and the loop adds at most
    [max 1 (num_frames - i)] entries. *)
Lemma stacktrace_loop_bounds :
  forall fuel i regs mmu st,
    loop_counter_ok num_frames i -> loop_fuel_ok num_frames fuel i ->
    exists rest,
      stacktrace_loop p (lo, hi) num_frames fuel i regs mmu st
      = Some (st ++ regs DwarfReg.ReturnAddress :: rest) /\
      Forall (fun a => lo <= a < hi) rest /\
      Z.of_nat (List.length rest) + 1 <= Z.max 1 (num_frames - i).
Proof.
  induction fuel as [ | fuel IH]; intros i regs mmu st Hi Hf.
  - now destruct Hf.
  - cbn [stacktrace_loop fst snd].
    rewrite (counter_next num_frames num_frames_u64 i Hi).
    destruct (i + 1 <? num_frames) eqn:Hlt.
    + apply Z.ltb_lt in Hlt.
      destruct (next_frame (m_debug p) (rebase p regs) mmu)
        as [[more regs'] mmu'].
      destruct (more && (lo <=? regs' DwarfReg.ReturnAddress)
                && (regs' DwarfReg.ReturnAddress <? hi)) eqn:Hc.
      * destruct (IH (i + 1) regs' mmu'
                     (st ++ [regs DwarfReg.ReturnAddress]))
          as (rest & Hrest & Hall & Hlen).
        -- right. unfold loop_counter_ok in Hi. lia.
        -- now apply fuel_next.
        -- exists (regs' DwarfReg.ReturnAddress :: rest).
           rewrite Hrest, <- app_assoc.
           split; [reflexivity | split].
           ++ constructor; [ | exact Hall].
              apply andb_true_iff in Hc. destruct Hc as [Hc H2].
              apply andb_true_iff in Hc. destruct Hc as [_ H1].
              apply Z.leb_le in H1. apply Z.ltb_lt in H2. lia.
           ++ cbn [List.length]. lia.
      * exists []. split; [reflexivity | split; [constructor | cbn; lia]].
    + exists []. split; [reflexivity | split; [constructor | cbn; lia]].
Qed.

(** Started inside the [.text] range, the single-image loop and the
    multi-image loop over the one image record the same addresses. *)
Lemma loops_agree :
  forall fuel i regs mmu st st',
    loop_counter_ok num_frames i -> loop_fuel_ok num_frames fuel i ->
    lo <= regs DwarfReg.ReturnAddress < hi ->
    exists t,
      stacktrace_loop p (lo, hi) num_frames fuel i regs mmu st
      = Some (st ++ t) /\
      stacktrace_loop_elfs [p] num_frames fuel i regs mmu st'
      = Some (Ret (st' ++ map (tag_with p) t)).
Proof.
  induction fuel as [ | fuel IH]; intros i regs mmu st st' Hi Hf Hin.
  - now destruct Hf.
  - cbn [stacktrace_loop stacktrace_loop_elfs elf_with_addr_in_text fst snd].
    rewrite p_text. cbn [bind fst snd].
    rewrite (proj2 (Z.leb_le _ _) (proj1 Hin)),
      (proj2 (Z.ltb_lt _ _) (proj2 Hin)). cbn [andb].
    rewrite (counter_next num_frames num_frames_u64 i Hi).
    destruct (i + 1 <? num_frames) eqn:Hlt.
    + apply Z.ltb_lt in Hlt.
      pose proof (fuel_next num_frames fuel i Hf Hlt) as Hf'.
      destruct (next_frame (m_debug p) (rebase p regs) mmu)
        as [[more regs'] mmu'].
      destruct more; cbn [andb].
      * destruct ((lo <=? regs' DwarfReg.ReturnAddress)
                  && (regs' DwarfReg.ReturnAddress <? hi)) eqn:Hc.
        -- destruct (IH (i + 1) regs' mmu'
                        (st ++ [regs DwarfReg.ReturnAddress])
                        (st' ++ [(regs DwarfReg.ReturnAddress, p)]))
             as (t & Hs & Hm).
           ++ right. unfold loop_counter_ok in Hi. lia.
           ++ exact Hf'.
           ++ apply andb_true_iff in Hc.
              now rewrite Z.leb_le, Z.ltb_lt in Hc.
           ++ exists (regs DwarfReg.ReturnAddress :: t).
              rewrite Hs, Hm, <- !app_assoc. split; reflexivity.
        -- exists [regs DwarfReg.ReturnAddress].
           split; [reflexivity | ].
           destruct fuel as [ | fuel']; [now destruct Hf' | ].
           cbn [stacktrace_loop_elfs elf_with_addr_in_text].
           rewrite p_text. cbn [bind fst snd]. rewrite Hc. reflexivity.
      * exists [regs DwarfReg.ReturnAddress]. split; reflexivity.
    + exists [regs DwarfReg.ReturnAddress]. split; reflexivity.
Qed.

End MoreWalks.

(** The single-image trace has at most [max 1 num_frames] entries, and
    every entry after the first lies in the [.text] range of the image. *)
Theorem X_single_trace_bounds (p : ElfParser) (kregs : kvm_regs)
        (num_frames : Z) (mmu : Mmu) (lo hi : Z) :
  section_limits p ".text" = Ret (lo, hi) ->
  in_u64 num_frames ->
  exists rest,
    get_stacktrace p kregs num_frames mmu = Some (Ret (rip kregs :: rest)) /\
    Forall (fun a => lo <= a < hi) rest /\
    Z.of_nat (List.length (rip kregs :: rest)) <= Z.max 1 num_frames.
Proof.
  intros Hlim Hcap. unfold get_stacktrace. rewrite Hlim.
  destruct (stacktrace_loop_bounds num_frames Hcap p lo hi
              (enough_fuel num_frames) 0
              (kvm_to_dwarf_regs kregs regs_uninit) mmu [])
    as (rest & Hret & Hall & Hlen).
  - now left.
  - now apply enough_fuel_ok.
  - exists rest. rewrite Hret. cbn [option_map app].
    rewrite kvm_to_dwarf_regs_ReturnAddress.
    split; [reflexivity | split; [exact Hall | ]].
    cbn [List.length]. lia.
Qed.

Lemma X_single_trace_bounds_witness :
  let kregs := mkKregs 0 0x1800 0 0 0 0 0 0 0 0 0 0 0 0 0 0 0x1010 0 in
  get_stacktrace image_A kregs 8 mmu_unmapped
  = Some (Ret [0x1010; 0x1800]) /\
  exists rest,
    get_stacktrace image_A kregs 8 mmu_unmapped
    = Some (Ret (rip kregs :: rest)) /\
    Forall (fun a => 0x1000 <= a < 0x2000) rest /\
    Z.of_nat (List.length (rip kregs :: rest)) <= Z.max 1 8.
Proof.
  intros kregs. split; [reflexivity | ].
  apply (X_single_trace_bounds image_A kregs 8 mmu_unmapped 0x1000 0x2000);
    [reflexivity | unfold in_u64; lia].
Defined.

(** When the initial return address lies in the [.text] range of an
    image, walking that image alone with the multi-image walker records
    exactly the addresses of the single-image walker, each tagged with the
    image. *)
Theorem X_single_image_walks_agree (p : ElfParser) (kregs : kvm_regs)
        (num_frames : Z) (mmu : Mmu) :
  text_contains p (rip kregs) ->
  in_u64 num_frames ->
  exists trace,
    get_stacktrace p kregs num_frames mmu = Some (Ret trace) /\
    get_stacktrace_elfs [p] kregs num_frames mmu
    = Some (Ret (map (tag_with p) trace)).
Proof.
  intros (lo & hi & Hlim & Hin) Hcap.
  unfold get_stacktrace, get_stacktrace_elfs. rewrite Hlim.
  destruct (loops_agree num_frames Hcap p lo hi Hlim
              (enough_fuel num_frames) 0
              (kvm_to_dwarf_regs kregs regs_uninit) mmu [] [])
    as (t & Hs & Hm).
  - now left.
  - now apply enough_fuel_ok.
  - now rewrite kvm_to_dwarf_regs_ReturnAddress.
  - exists t. rewrite Hs, Hm. split; reflexivity.
Qed.

Lemma X_single_image_walks_agree_witness :
  exists trace,
    get_stacktrace image_A kregs_at_1010 8 mmu_unmapped = Some (Ret trace) /\
    get_stacktrace_elfs [image_A] kregs_at_1010 8 mmu_unmapped
    = Some (Ret (map (tag_with image_A) trace)).
Proof.
  apply (X_single_image_walks_agree image_A kregs_at_1010 8 mmu_unmapped).
  - exists 0x1000, 0x2000. split; [reflexivity | cbn; lia].
  - unfold in_u64. lia.
Defined.

(** ** Dependencies *)

Lemma index_ge (s1 s2 : string) :
  forall n m, index n s1 s2 = Some m -> (n <= m)%nat.
Proof.
  induction s2 as [ | b s2 IH]; intros n m; destruct n as [ | n];
    cbn [index]; intros H; try lia.
  - discriminate H.
  - destruct (index n s1 s2) as [k | ] eqn:E; [ | discriminate H].
    injection H as <-. specialize (IH n k E). lia.
Qed.

(** [index] finds the first occurrence at or after its start. *)
Lemma index_first (n p : nat) (s1 s2 : string) :
  s1 <> EmptyString ->
  (index n s1 s2 = Some p <->
   ((n <= p)%nat /\ substring p (String.length s1) s2 = s1 /\
    forall p', (n <= p')%nat -> (p' < p)%nat ->
               substring p' (String.length s1) s2 <> s1)).
Proof.
  intros Hne. split.
  - intros H. split; [now apply index_ge with s1 s2 | ].
    split; [now apply index_correct1 with n | ].
    intros p' H1 H2. now apply index_correct2 with n p.
  - intros (Hnp & Hat & Hbefore).
    destruct (index n s1 s2) as [m | ] eqn:E.
    + f_equal. pose proof (index_ge _ _ _ _ E) as Hnm.
      pose proof (index_correct1 _ _ _ _ E) as Hm.
      pose proof (index_correct2 _ _ _ _ E) as Hbm.
      destruct (Nat.lt_trichotomy m p) as [Hlt | [Heq | Hgt]].
      * exfalso. now apply (Hbefore m).
      * exact Heq.
      * exfalso. now apply (Hbm p).
    + exfalso. now apply (index_correct3 n p s1 s2 E).
Qed.

Lemma ldd_dependency_iff (line d : string) :
  ldd_dependency line = Some d <-> delimited_dependency line d.
Proof.
  unfold ldd_dependency, delimited_dependency. split.
  - destruct (index 0 "=> " line) as [p | ] eqn:E1; [ | discriminate].
    destruct (index (p + 3) " " line) as [q | ] eqn:E2; [ | discriminate].
    intros [= <-].
    apply index_first in E1; [ | discriminate].
    apply index_first in E2; [ | discriminate].
    destruct E1 as (_ & Hp & Hp'). destruct E2 as (Hq & Hq1 & Hq').
    exists p, q. repeat split; try assumption.
    intros p' Hlt. apply Hp'; lia.
  - intros (p & q & Hpq & Hp & Hp' & Hq & Hq' & ->).
    assert (E1 : index 0 "=> " line = Some p).
    { apply index_first; [discriminate | ].
      split; [lia | split; [exact Hp | ]]. intros p' _ Hlt. now apply Hp'. }
    assert (E2 : index (p + 3) " " line = Some q).
    { apply index_first; [discriminate | ].
      split; [exact Hpq | split; [exact Hq | exact Hq']]. }
    rewrite E1, E2. reflexivity.
Qed.

(** The dependencies of an image are exactly the texts found, in the lines
    [ldd] printed, between the first ["=> "] of a line and the next space.
    A line without ["=> "], or without a space after it, contributes
    nothing, so there are at most as many dependencies as lines. *)
Theorem X_dependencies_are_delimited (f : ElfFile) (d : string) :
  (In d (get_dependencies f) <->
   exists line, In line (ldd_lines f) /\ delimited_dependency line d) /\
  (List.length (get_dependencies f) <= List.length (ldd_lines f))%nat /\
  (forall line,
      (forall p, substring p 3 line <> "=> ") ->
      ldd_dependency line = None).
Proof.
  unfold get_dependencies. split; [ | split].
  - rewrite in_flat_map. split.
    + intros (line & Hline & Hd). exists line. split; [exact Hline | ].
      apply ldd_dependency_iff.
      destruct (ldd_dependency line) as [d' | ]; [ | destruct Hd].
      destruct Hd as [<- | []]. reflexivity.
    + intros (line & Hline & Hd). exists line. split; [exact Hline | ].
      apply ldd_dependency_iff in Hd. rewrite Hd. now left.
  - induction (ldd_lines f) as [ | line l IH]; [reflexivity | ].
    cbn [flat_map]. rewrite length_app. cbn [List.length].
    destruct (ldd_dependency line); cbn [List.length]; lia.
  - intros line Hnone.
    destruct (ldd_dependency line) as [d' | ] eqn:E; [ | reflexivity].
    apply ldd_dependency_iff in E. destruct E as (p & q & _ & Hp & _).
    now destruct (Hnone p).
Qed.

(** On the sample output of [ldd]: the one line with a path after ["=> "]
    gives a dependency; the line ["libmissing.so => not found"] gives the
    word ["not"]; the lines without ["=> "] give nothing. *)
Lemma X_dependencies_sample :
  get_dependencies file_full = ["/lib/x86_64-linux-gnu/libc.so.6"; "not"] /\
  delimited_dependency
    " libc.so.6 => /lib/x86_64-linux-gnu/libc.so.6 (0x00007f12a0e00000)"
    "/lib/x86_64-linux-gnu/libc.so.6".
Proof.
  split; [reflexivity | ].
  apply ldd_dependency_iff. reflexivity.
Qed.

Lemma lookup_with_text (elfs : list ElfParser) (addr : Z) (elf : ElfParser) :
  (forall e, In e elfs -> has_text e) ->
  first_text_owner elfs addr elf ->
  elf_with_addr_in_text elfs addr = Ret (Some elf).
Proof.
  intros Hall Hown.
  destruct (elf_with_addr_in_text_spec elfs addr Hall)
    as [(e & Hret & He) | [_ Hno]].
  - rewrite Hret. destruct (lookup_some elfs addr e Hret) as [_ Huniq].
    now rewrite (Huniq elf Hown).
  - destruct (owner_excludes_no_owner _ _ _ Hown Hno).
Qed.

(** When [next_frame] of an image never finds a further frame (as for an
    image without debug information), both walkers stop after the initial
    return address: the single-image trace is that address alone, and the
    multi-image trace is that address with its owner. *)
Theorem X_walk_without_frames (p : ElfParser) (elfs : list ElfParser)
        (kregs : kvm_regs) (num_frames : Z) (mmu : Mmu) :
  (has_text p ->
   (forall regs m, fst (fst (next_frame (m_debug p) regs m)) = false) ->
   get_stacktrace p kregs num_frames mmu = Some (Ret [rip kregs])) /\
  (forall elf,
      (forall e, In e elfs -> has_text e) ->
      first_text_owner elfs (rip kregs) elf ->
      (forall regs m, fst (fst (next_frame (m_debug elf) regs m)) = false) ->
      get_stacktrace_elfs elfs kregs num_frames mmu
      = Some (Ret [(rip kregs, elf)])).
Proof.
  split.
  - intros (limits & Hlim) Hnone. unfold get_stacktrace, enough_fuel.
    rewrite Hlim. cbn [stacktrace_loop app].
    rewrite kvm_to_dwarf_regs_ReturnAddress.
    destruct (wrap64 (0 + 1) <? num_frames); [ | reflexivity].
    specialize (Hnone (rebase p (kvm_to_dwarf_regs kregs regs_uninit)) mmu).
    destruct (next_frame (m_debug p)
                (rebase p (kvm_to_dwarf_regs kregs regs_uninit)) mmu)
      as [[more regs'] mmu'].
    cbn [fst] in Hnone. rewrite Hnone. reflexivity.
  - intros elf Hall Hown Hnone. unfold get_stacktrace_elfs, enough_fuel.
    cbn [stacktrace_loop_elfs].
    rewrite kvm_to_dwarf_regs_ReturnAddress.
    rewrite (lookup_with_text elfs (rip kregs) elf Hall Hown). cbn [app].
    destruct (wrap64 (0 + 1) <? num_frames); [ | reflexivity].
    specialize (Hnone (rebase elf (kvm_to_dwarf_regs kregs regs_uninit)) mmu).
    destruct (next_frame (m_debug elf)
                (rebase elf (kvm_to_dwarf_regs kregs regs_uninit)) mmu)
      as [[more regs'] mmu'].
    cbn [fst] in Hnone. rewrite Hnone. reflexivity.
Qed.

Lemma stacktrace_loop_elfs_same_lookup (elfs elfs' : list ElfParser)
      (num_frames : Z) :
  (forall addr,
      elf_with_addr_in_text elfs addr = elf_with_addr_in_text elfs' addr) ->
  forall fuel i regs mmu st,
    stacktrace_loop_elfs elfs num_frames fuel i regs mmu st
    = stacktrace_loop_elfs elfs' num_frames fuel i regs mmu st.
Proof.
  intros Hsame. induction fuel as [ | fuel IH]; intros i regs mmu st;
    [reflexivity | ].
  cbn [stacktrace_loop_elfs]. rewrite Hsame.
  destruct (elf_with_addr_in_text elfs' (regs DwarfReg.ReturnAddress))
    as [[elf | ] | msg]; try reflexivity.
  destruct (wrap64 (i + 1) <? num_frames); [ | reflexivity].
  destruct (next_frame (m_debug elf) (rebase elf regs) mmu)
    as [[more regs'] mmu'].
  destruct more; [apply IH | reflexivity].
Qed.

(** When every image has a [.text] section and no address lies in the
    [.text] range of two images, the order of the images (and their
    repetition) in the list is irrelevant: two lists with the same images
    give the same owner for every address and the same trace. *)
Theorem X_walk_order_irrelevant (elfs elfs' : list ElfParser)
        (kregs : kvm_regs) (num_frames : Z) (mmu : Mmu) :
  (forall e, In e elfs <-> In e elfs') ->
  (forall e, In e elfs -> has_text e) ->
  (forall addr e1 e2,
      In e1 elfs -> In e2 elfs ->
      text_contains e1 addr -> text_contains e2 addr -> e1 = e2) ->
  (forall addr,
      elf_with_addr_in_text elfs addr = elf_with_addr_in_text elfs' addr) /\
  get_stacktrace_elfs elfs kregs num_frames mmu
  = get_stacktrace_elfs elfs' kregs num_frames mmu.
Proof.
  intros Hsame Hall Hdisj.
  assert (Hall' : forall e, In e elfs' -> has_text e)
    by (intros e He; apply Hall, Hsame, He).
  assert (Hlook : forall addr,
             elf_with_addr_in_text elfs addr
             = elf_with_addr_in_text elfs' addr).
  { intros addr.
    destruct (elf_with_addr_in_text_spec elfs addr Hall)
      as [(e & Hret & He) | [Hret Hno]];
      destruct (elf_with_addr_in_text_spec elfs' addr Hall')
        as [(e' & Hret' & He') | [Hret' Hno']];
      rewrite Hret, Hret'.
    - destruct He as (pre & post & Heq & Hin & _).
      destruct He' as (pre' & post' & Heq' & Hin' & _).
      assert (H1 : In e elfs) by (rewrite Heq; apply in_elt).
      assert (H2 : In e' elfs)
        by (apply Hsame; rewrite Heq'; apply in_elt).
      now rewrite (Hdisj addr e e' H1 H2 Hin Hin').
    - exfalso. destruct He as (pre & post & Heq & Hin & _).
      apply (Hno' e); [ | exact Hin].
      apply Hsame. rewrite Heq. apply in_elt.
    - exfalso. destruct He' as (pre' & post' & Heq' & Hin' & _).
      apply (Hno e'); [ | exact Hin'].
      apply Hsame. rewrite Heq'. apply in_elt.
    - reflexivity. }
  split; [exact Hlook | ].
  unfold get_stacktrace_elfs. now apply stacktrace_loop_elfs_same_lookup.
Qed.

Lemma X_walk_order_irrelevant_witness :
  get_stacktrace_elfs [image_A; image_B] kregs_at_1010 8 mmu_unmapped
  = get_stacktrace_elfs [image_B; image_A; image_B] kregs_at_1010 8
                        mmu_unmapped.
Proof.
  apply (X_walk_order_irrelevant [image_A; image_B]
           [image_B; image_A; image_B] kregs_at_1010 8 mmu_unmapped).
  - intros e. cbn [In]. tauto.
  - exact sample_images_have_text.
  - intros addr e1 e2 [<- | [<- | []]] [<- | [<- | []]]
           (lo1 & hi1 & Hl1 & H1) (lo2 & hi2 & Hl2 & H2);
      try reflexivity; exfalso;
      vm_compute in Hl1; vm_compute in Hl2;
      injection Hl1 as <- <-; injection Hl2 as <- <-; lia.
Defined.
